(** * Steady-state transport assembly of OpenPNM: [algorithms/_transport.py]

    A shallow embedding of the [Transport] algorithm class: assembly of the
    coefficient matrix [A] and right-hand side [b], injection of boundary
    conditions, the pre-solve validations and [run].

    Numbers.  NumPy's float64 values are modelled by [num]: the three
    non-finite classes (NaN, +inf, -inf) are kept apart, and a finite value is
    an exact rational, so [nadd], [nmul] and [ndiv_count] neither round nor
    overflow and the sign of zero is not kept.  The theorems on the assembly
    say which values are stored where and by which operations of the code
    they are computed; a statement that rests on exact sums (the entries of
    the Laplacian as sums of conductances, rows that add up to zero) is a
    statement of exact arithmetic.  What rounding does to such a statement is
    evaluated in the module [Float64], which repeats the assembly on Rocq's
    primitive binary64 numbers.

    Arrays.  A NumPy vector is a [list num], a boolean mask a [list bool].
    OpenPNM stores only arrays of length [Np] under a ['pore.*'] key, so all
    pore arrays of one algorithm have the same length; the functions below
    follow the index of the array that is written.

    Sparse matrices.  A SciPy [coo_matrix] is a list of stored triples
    (row, col, data); duplicates are allowed and stand for their sum, as in
    SciPy.  The matrix objects live in a store ([heap]) and the algorithm
    holds references to them, because [_apply_BCs] edits [self.A] in place
    while [self._pure_A] must stay intact. *)

From Stdlib Require Import QArith Qcanon Qcabs.
From Stdlib Require PrimFloat FloatOps Uint63.
From stdpp Require Import gmap strings list fin_maps.

(** ** Floating point values *)

Inductive num := Fin (q : Qc) | PInf | NInf | NaN.

#[global] Instance num_eq_dec : EqDecision num.
Proof. solve_decision. Defined.

(** [np.isfinite] and [np.isnan]. *)
Definition isfinite (x : num) : bool :=
  match x with Fin _ => true | _ => false end.

Definition isnan (x : num) : bool :=
  match x with NaN => true | _ => false end.

(** [x != 0] on floats: NaN and the infinities differ from zero. *)
Definition nonzero (x : num) : bool :=
  match x with Fin q => negb (bool_decide (q = 0%Qc)) | _ => true end.

Definition nopp (x : num) : num :=
  match x with
  | Fin q => Fin (- q)%Qc
  | PInf => NInf
  | NInf => PInf
  | NaN => NaN
  end.

Definition nadd (x y : num) : num :=
  match x, y with
  | NaN, _ | _, NaN => NaN
  | Fin a, Fin b => Fin (a + b)%Qc
  | PInf, NInf | NInf, PInf => NaN
  | PInf, _ | _, PInf => PInf
  | NInf, _ | _, NInf => NInf
  end.

Definition nsub (x y : num) : num := nadd x (nopp y).

(** An infinity times a finite factor: the sign of the factor decides, and
    zero times infinity is NaN. *)
Definition scale_inf (positive : bool) (a : Qc) : num :=
  match (a ?= 0)%Qc with
  | Eq => NaN
  | Gt => if positive then PInf else NInf
  | Lt => if positive then NInf else PInf
  end.

Definition nmul (x y : num) : num :=
  match x, y with
  | NaN, _ | _, NaN => NaN
  | Fin a, Fin b => Fin (a * b)%Qc
  | Fin a, PInf | PInf, Fin a => scale_inf true a
  | Fin a, NInf | NInf, Fin a => scale_inf false a
  | PInf, PInf | NInf, NInf => PInf
  | PInf, NInf | NInf, PInf => NInf
  end.

(** Division of a float by a positive count, as [np.mean] does. *)
Definition ndiv_count (x : num) (n : nat) : num :=
  match x with
  | Fin q => Fin (q / Q2Qc (inject_Z (Z.of_nat n)))%Qc
  | _ => x
  end.

(** ** Vectors and masks *)

Abbreviation vec := (list num).
Abbreviation mask := (list bool).

Definition vget (v : vec) (k : nat) : num := default NaN (v !! k).
Definition mget (m : mask) (k : nat) : bool := default false (m !! k).

Definition nsum (v : vec) : num := foldr nadd (Fin 0) v.

Definition zeros (n : nat) : vec := replicate n (Fin 0).

(** [np.zeros_like(v)]. *)
Definition zeros_like (v : vec) : vec := zeros (length v).

(** [v.mean()]; the mean of an empty array is NaN. *)
Definition mean (v : vec) : num :=
  match length v with
  | O => NaN
  | S n => ndiv_count (nsum v) (S n)
  end.

(** [np.isfinite(v).all()]. *)
Definition all_finite (v : vec) : bool := forallb isfinite v.

(** [b[ind] = vals[ind]] for a boolean mask [ind]. *)
Definition mask_assign (b : vec) (ind : mask) (vals : vec) : vec :=
  imap (fun k x => if mget ind k then vget vals k else x) b.

(** [b[~ind] -= t[~ind]]. *)
Definition mask_sub_not (b : vec) (ind : mask) (t : vec) : vec :=
  imap (fun k x => if mget ind k then x else nsub x (vget t k)) b.

(** [to_indices(ind)]: the positions at which the mask is set. *)
Definition to_indices (ind : mask) : list nat :=
  filter (fun k => mget ind k = true) (seq 0 (length ind)).

(** [np.isin(k, P)]. *)
Definition isin (k : nat) (P : list nat) : bool := bool_decide (k ∈ P).

(** [d[P] = np.ones_like(P, dtype=float) * f]. *)
Definition index_assign_scaled_ones (d : vec) (P : list nat) (f : num) : vec :=
  imap (fun k x => if isin k P then nmul (Fin 1) f else x) d.

(** Element-wise [w * x_new + (1 - w) * x] of two arrays. *)
Definition relax (w : num) (x_new x : vec) : vec :=
  zip_with (fun a c => nadd (nmul w a) (nmul (nsub (Fin 1) w) c)) x_new x.

(** ** Sparse matrices in coordinate form *)

Record entry := Entry { row : nat; col : nat; data : num }.

#[global] Instance entry_eq_dec : EqDecision entry.
Proof. solve_decision. Defined.

(** A square [coo_matrix] of shape [(shape, shape)]. *)
Record coo := Coo { shape : nat; entries : list entry }.

#[global] Instance coo_eq_dec : EqDecision coo.
Proof. solve_decision. Defined.

Definition at_pos (i j : nat) (e : entry) : bool :=
  bool_decide (row e = i) && bool_decide (col e = j).

(** The value of the matrix at [(i, j)]: the sum of the triples stored
    there ([toarray()[i, j]]). *)
Definition coo_get (m : coo) (i j : nat) : num :=
  nsum (data <$> filter (fun e => at_pos i j e = true) (entries m)).

(** [m.diagonal()]; triples at the same place are summed. *)
Definition coo_diagonal (m : coo) : vec :=
  (fun k => coo_get m k k) <$> seq 0 (shape m).

(** [(m * x)[i]]: SciPy adds [data * x[col]] over the stored triples of
    the row. *)
Definition coo_row_dot (m : coo) (x : vec) (i : nat) : num :=
  nsum ((fun e => nmul (data e) (vget x (col e)))
          <$> filter (fun e => row e = i) (entries m)).

(** [m * x] for a vector [x]. *)
Definition coo_matvec (m : coo) (x : vec) : vec :=
  coo_row_dot m x <$> seq 0 (shape m).

(** [m.sum(axis=0)]: column sums. *)
Definition coo_sum_axis0 (m : coo) : vec :=
  (fun j => nsum (data <$> filter (fun e => col e = j) (entries m)))
    <$> seq 0 (shape m).


(** [m.setdiag(values)]: SciPy drops the stored triples of the main
    diagonal (rows below [max_index]) and appends one triple per given
    value. *)
Definition coo_setdiag (m : coo) (values : vec) : coo :=
  let max_index := shape m `min` length values in
  Coo (shape m)
      (filter (fun e => col e ≠ row e ∨ max_index ≤ row e) (entries m)
       ++ imap (fun k v => Entry k k v) (take max_index values)).

(** [m.eliminate_zeros()]: keeps the triples with [data != 0]. *)
Definition coo_eliminate_zeros (m : coo) : coo :=
  Coo (shape m) (filter (fun e => nonzero (data e) = true) (entries m)).

(** [m.data[mask] = 0] with
    [mask = np.isin(m.row, P) | np.isin(m.col, P)]. *)
Definition coo_zero_rows_cols (m : coo) (P : list nat) : coo :=
  Coo (shape m)
      ((fun e => if isin (row e) P || isin (col e) P
                 then Entry (row e) (col e) (Fin 0) else e) <$> entries m).

(** [m.data *= -1]. *)
Definition coo_negate (m : coo) : coo :=
  Coo (shape m) ((fun e => Entry (row e) (col e) (nmul (data e) (Fin (-1)%Qc))) <$> entries m).

(** [scipy.sparse.csgraph.laplacian(m)] with its default arguments
    ([normed=False], in-degree): the weights [w = m.sum(axis=0) -
    m.diagonal()] go on the diagonal and every other stored value is
    negated, that is [L = D - m]. *)
Definition laplacian (m : coo) : coo :=
  let w := zip_with nsub (coo_sum_axis0 m) (coo_diagonal m) in
  coo_setdiag (coo_negate m) w.

(** ** The network and the adjacency matrix *)

(** [Np] pores; one pair of pore indices per throat (['throat.conns']), so
    [Nt = length conns]. *)
Record Network := { Np : nat; conns : list (nat * nat) }.

Inductive exn :=
  | Exception (msg : string)
  | KeyError (key : option string)
  | AttributeError.

Inductive result (A : Type) :=
  | Ok (a : A)
  | Raise (e : exn).
Arguments Ok {A} a.
Arguments Raise {A} e.

(** Modelled from the spec: [Network.create_adjacency_matrix] is not among
    the sources at hand.  Sections 4.1 and 6 of the specification: the builder
    takes one weight per throat and returns a sparse [Np x Np] structure in
    coordinate form, built "from the [Nt] throat endpoints" with "symmetric
    storage" (each throat stored in both directions with the same weight);
    it "fails if [g] contains a shape mismatch with [Nt]". *)
Definition adjacency (net : Network) (weights : vec) : coo :=
  Coo (Np net)
      (zip_with (fun c w => Entry c.1 c.2 w) (conns net) weights
       ++ zip_with (fun c w => Entry c.2 c.1 w) (conns net) weights).

Definition create_adjacency_matrix (net : Network) (weights : vec) : result coo :=
  if bool_decide (length weights = length (conns net))
  then Ok (adjacency net weights)
  else Raise (Exception "weights do not match the number of throats").

(** Modelled from the spec: [openpnm.topotools.is_fully_connected] is not
    among the sources at hand.  Section 4.5 of the specification: "the
    network graph restricted to pores carrying any active BC must reach every
    connected component; if any component lacks a BC-bearing pore" the check
    fails.  The pores reached from the flagged ones are collected by [Np]
    rounds of stepping over the throats; the check holds when every pore has
    been reached. *)
Definition neighbours (cs : list (nat * nat)) (S : list nat) : list nat :=
  flat_map (fun c => (if isin c.1 S then [c.2] else [])
                     ++ (if isin c.2 S then [c.1] else [])) cs.

Definition grow (cs : list (nat * nat)) (S : list nat) : list nat :=
  S ++ neighbours cs S.

Definition reached (net : Network) (pores_BC : mask) : list nat :=
  Nat.iter (Np net) (grow (conns net)) (to_indices pores_BC).

Definition is_fully_connected (net : Network) (pores_BC : mask) : bool :=
  forallb (fun p => isin p (reached net pores_BC)) (seq 0 (Np net)).

(** ** The algorithm object *)

(** [TransportSettings]; a key that holds [None] is [None] here. *)
Record TransportSettings := {
  phase : option string;
  quantity : option string;
  conductance : option string;
  cache : bool
}.

(** The defaults of the class: empty strings, caching on. *)
Definition default_settings : TransportSettings :=
  {| phase := Some ""; quantity := Some ""; conductance := Some ""; cache := true |}.

(** [SolutionContainer]: the solution arrays by quantity name, and the
    [is_converged] attribute. *)
Record SolutionContainer := {
  solutions : gmap string vec;
  is_converged : bool
}.

(** The state of a [Transport] object and of what it refers to:
    - [props]: the arrays stored on the algorithm, [self[key]];
    - [project]: the arrays of each phase of the project, by phase name;
    - [iterative_props]: the names the algorithm reports as iterative;
    - [heap]: the sparse matrix objects; [_A] and [_pure_A] refer into it. *)
Record Transport := {
  settings : TransportSettings;
  network : Network;
  project : gmap string (gmap string vec);
  iterative_props : list string;
  props : gmap string vec;
  heap : list coo;
  _A : option nat;
  _b : option vec;
  _pure_A : option nat;
  _pure_b : option vec;
  soln : option SolutionContainer
}.

Definition set_cache (c : bool) (s : Transport) : Transport :=
  {| settings := {| phase := phase (settings s); quantity := quantity (settings s);
                    conductance := conductance (settings s); cache := c |};
     network := network s; project := project s;
     iterative_props := iterative_props s; props := props s; heap := heap s;
     _A := _A s; _b := _b s; _pure_A := _pure_A s; _pure_b := _pure_b s;
     soln := soln s |}.

Definition set_props (p : gmap string vec) (s : Transport) : Transport :=
  {| settings := settings s; network := network s; project := project s;
     iterative_props := iterative_props s; props := p; heap := heap s;
     _A := _A s; _b := _b s; _pure_A := _pure_A s; _pure_b := _pure_b s;
     soln := soln s |}.

Definition set_heap (h : list coo) (s : Transport) : Transport :=
  {| settings := settings s; network := network s; project := project s;
     iterative_props := iterative_props s; props := props s; heap := h;
     _A := _A s; _b := _b s; _pure_A := _pure_A s; _pure_b := _pure_b s;
     soln := soln s |}.

Definition set_A (a : option nat) (s : Transport) : Transport :=
  {| settings := settings s; network := network s; project := project s;
     iterative_props := iterative_props s; props := props s; heap := heap s;
     _A := a; _b := _b s; _pure_A := _pure_A s; _pure_b := _pure_b s;
     soln := soln s |}.

Definition set_b (b : option vec) (s : Transport) : Transport :=
  {| settings := settings s; network := network s; project := project s;
     iterative_props := iterative_props s; props := props s; heap := heap s;
     _A := _A s; _b := b; _pure_A := _pure_A s; _pure_b := _pure_b s;
     soln := soln s |}.

Definition set_pure_A (a : option nat) (s : Transport) : Transport :=
  {| settings := settings s; network := network s; project := project s;
     iterative_props := iterative_props s; props := props s; heap := heap s;
     _A := _A s; _b := _b s; _pure_A := a; _pure_b := _pure_b s;
     soln := soln s |}.

Definition set_pure_b (b : option vec) (s : Transport) : Transport :=
  {| settings := settings s; network := network s; project := project s;
     iterative_props := iterative_props s; props := props s; heap := heap s;
     _A := _A s; _b := _b s; _pure_A := _pure_A s; _pure_b := b;
     soln := soln s |}.

Definition set_soln (c : option SolutionContainer) (s : Transport) : Transport :=
  {| settings := settings s; network := network s; project := project s;
     iterative_props := iterative_props s; props := props s; heap := heap s;
     _A := _A s; _b := _b s; _pure_A := _pure_A s; _pure_b := _pure_b s;
     soln := c |}.

(** ** Methods run on the object: state passing with exceptions

    A method takes the state and returns the state it leaves behind together
    with its value or the exception it raised; what was written before a
    [raise] stays written. *)

Definition M (A : Type) : Type := Transport → Transport * result A.

#[global] Instance M_ret : MRet M := fun A a s => (s, Ok a).

#[global] Instance M_bind : MBind M := fun A B f c s =>
  match c s with
  | (s', Ok a) => f a s'
  | (s', Raise e) => (s', Raise e)
  end.

Definition raise {A} (e : exn) : M A := fun s => (s, Raise e).
Definition get : M Transport := fun s => (s, Ok s).
Definition modify (f : Transport → Transport) : M unit := fun s => (f s, Ok tt).

Definition lift {A} (r : result A) : M A := fun s => (s, r).

(** [d[key]] on a dictionary; a missing key raises [KeyError]. *)
Definition dict_get {V} (d : gmap string V) (key : option string) : M V :=
  match key ≫= (d !!.) with
  | Some v => mret v
  | None => raise (KeyError key)
  end.

(** [self[key]] and [self[key] = v]. *)
Definition getitem (key : option string) : M vec :=
  s ← get; dict_get (props s) key.

Definition setitem (key : option string) (v : vec) : M unit :=
  match key with
  | Some k => modify (fun s => set_props (<[k := v]> (props s)) s)
  | None => raise AttributeError
  end.

(** A new matrix object in the store; its reference is returned. *)
Definition alloc (m : coo) : M nat :=
  fun s => (set_heap (heap s ++ [m]) s, Ok (length (heap s))).

Definition load (l : nat) : M coo :=
  s ← get; mret (default (Coo 0 []) (heap s !! l)).

Definition store (l : nat) (m : coo) : M unit :=
  modify (fun s => set_heap (<[l := m]> (heap s)) s).

(** The [x] property: the array stored under the quantity name. *)
Definition x_get : M vec :=
  s ← get; getitem (quantity (settings s)).

Definition x_set (v : vec) : M unit :=
  s ← get; setitem (quantity (settings s)) v.

(** ** Assembly *)

(** [key in names]; [None] is no name. *)
Definition key_in (key : option string) (names : list string) : bool :=
  match key with
  | Some k => bool_decide (k ∈ names)
  | None => false
  end.

Definition _build_A : M unit :=
  s ← get;
  let gvals := conductance (settings s) in
  (if key_in gvals (iterative_props s)
   then modify (set_cache false) else mret tt);;
  s ← get;
  (if negb (cache (settings s)) then modify (set_pure_A None) else mret tt);;
  s ← get;
  match _pure_A s with
  | None =>
      ph ← dict_get (project s) (phase (settings s));
      g ← dict_get ph gvals;
      am ← lift (create_adjacency_matrix (network s) g);
      l ← alloc (laplacian am);
      modify (set_pure_A (Some l))
  | Some _ => mret tt
  end;;
  s ← get;
  match _pure_A s with
  | Some p =>
      pure ← load p;
      l ← alloc pure;
      modify (set_A (Some l))
  | None => raise AttributeError
  end.

Definition _build_b : M unit :=
  s ← get;
  let b := zeros (Np (network s)) in
  modify (set_pure_b (Some b));;
  modify (set_b (Some b)).

(** The [A] property: the reference held in [_A], built on first use. *)
Definition A_get : M nat :=
  s ← get;
  match _A s with None => _build_A | Some _ => mret tt end;;
  s ← get;
  match _A s with Some l => mret l | None => raise AttributeError end.

(** The [b] property. *)
Definition b_get : M vec :=
  s ← get;
  match _b s with None => _build_b | Some _ => mret tt end;;
  s ← get;
  match _b s with Some b => mret b | None => raise AttributeError end.

(** A write into the array behind [self.b], as in [self.b[ind] = ...]. *)
Definition b_update (f : vec → vec) : M unit :=
  b ← b_get; modify (set_b (Some (f b))).

(** A method call that edits the matrix behind [self.A] in place. *)
Definition A_update (f : coo → coo) : M unit :=
  l ← A_get; m ← load l; store l (f m).

(** ** Boundary conditions

    The two arrays are read once where the source reads them again on each
    line; nothing writes them in between. *)
Definition _apply_BCs : M unit :=
  s ← get;
  match props s !! "pore.bc.rate" with
  | Some rate =>
      let ind := isfinite <$> rate in
      b_update (fun b => mask_assign b ind rate)
  | None => mret tt
  end;;
  s ← get;
  match props s !! "pore.bc.value" with
  | Some value =>
      l ← A_get; m ← load l;
      let f := mean (coo_diagonal m) in
      let ind := isfinite <$> value in
      b_update (fun b => mask_assign b ind ((fun v => nmul v f) <$> value));;
      b ← b_get;
      let x_BC := mask_assign (zeros_like b) ind value in
      l ← A_get; m ← load l;
      b_update (fun b => mask_sub_not b ind (coo_matvec m x_BC));;
      let P_bc := to_indices ind in
      A_update (fun m => coo_zero_rows_cols m P_bc);;
      l ← A_get; m ← load l;
      let datadiag := index_assign_scaled_ones (coo_diagonal m) P_bc f in
      A_update (fun m => coo_setdiag m datadiag);;
      A_update coo_eliminate_zeros
  | None => mret tt
  end.

Definition _update_A_and_b : M unit :=
  _build_A;; _build_b;; _apply_BCs.

(** ** Validation *)

Definition _validate_x0 : M unit :=
  x0 ← getitem (Some "pore.initial_guess");
  if all_finite x0 then mret tt
  else raise (Exception "x0 contains inf/nan values").

Definition _validate_settings : M unit :=
  s ← get;
  (if quantity (settings s) is None
   then raise (Exception "'quantity' hasn't been defined on this algorithm")
   else mret tt);;
  (if conductance (settings s) is None
   then raise (Exception "'conductance' hasn't been defined on this algorithm")
   else mret tt);;
  (if phase (settings s) is None
   then raise (Exception "'phase' hasn't been defined on this algorithm")
   else mret tt).

Definition clustered_msg : string :=
  "Your network is clustered. Run h = net.check_network_health()"
  +:+ " followed by op.topotools.trim(net, pores=h['disconnected_pores'])"
  +:+ " to make your network fully connected.".

(** The mask handed to [is_fully_connected]:
    [~np.isnan(rate) + ~np.isnan(value)]. *)
Definition bc_pores (rate value : vec) : mask :=
  zip_with orb (negb ∘ isnan <$> rate) (negb ∘ isnan <$> value).

Definition _validate_topology_health : M unit :=
  rate ← getitem (Some "pore.bc.rate");
  value ← getitem (Some "pore.bc.value");
  s ← get;
  if is_fully_connected (network s) (bc_pores rate value) then mret tt
  else raise (Exception clustered_msg).

Section Run.

(** What [_validate_data_health] raises once [A] or [b] holds a non-finite
    value.  The search for the root cause walks the model dependency graph
    of the project, which is not part of the state modelled here; it writes
    nothing on the algorithm and every one of its branches ends in a
    [raise]. *)
Variable diagnose : Transport → exn.

(** [solver.solve(A=, b=, x0=)], returning the solution and an exit code. *)
Definition Solver : Type := coo → vec → vec → vec * Z.

(** The solver named by the workspace settings. *)
Variable default_solver : Solver.

Definition _validate_data_health : M bool :=
  _validate_topology_health;;
  l ← A_get; m ← load l;
  if all_finite (data <$> entries m) then
    b ← b_get;
    if all_finite b then mret true
    else s ← get; raise (diagnose s)
  else s ← get; raise (diagnose s).

(** ** Running the algorithm *)

(** The key for the container of solutions; [run] gets here only with a
    quantity that passed [_validate_settings] and served as a key of the
    algorithm. *)
Definition quantity_key : M string :=
  s ← get;
  match quantity (settings s) with
  | Some q => mret q
  | None => raise AttributeError
  end.

Definition soln_get : M SolutionContainer :=
  s ← get;
  match soln s with Some c => mret c | None => raise AttributeError end.

Definition _run_special (solver : Solver) (x0 : vec) (w : num) : M unit :=
  _validate_data_health;;
  l ← A_get; m ← load l; b ← b_get;
  let '(x_new, exit_code) := solver m b x0 in
  x ← x_get;
  x_set (relax w x_new x);;
  _update_A_and_b;;
  q ← quantity_key;
  c ← soln_get;
  _ ← dict_get (solutions c) (Some q);
  x ← x_get;
  modify (set_soln (Some {| solutions := <[q := x]> (solutions c);
                            is_converged := is_converged c |}));;
  c ← soln_get;
  modify (set_soln (Some {| solutions := solutions c;
                            is_converged := bool_decide (exit_code = 0%Z) |})).

Definition run (solver : option Solver) (x0 : option vec) : M SolutionContainer :=
  let solver := default default_solver solver in
  _validate_settings;;
  _validate_data_health;;
  x0 ← match x0 with
       | None => b ← b_get; mret (zeros_like b)
       | Some v => mret v
       end;
  x_set x0;;
  setitem (Some "pore.initial_guess") x0;;
  _validate_x0;;
  modify (set_soln (Some {| solutions := ∅; is_converged := false |}));;
  q ← quantity_key;
  c ← soln_get;
  modify (set_soln (Some {| solutions := <[q := x0]> (solutions c);
                            is_converged := is_converged c |}));;
  c ← soln_get;
  modify (set_soln (Some {| solutions := solutions c; is_converged := false |}));;
  _update_A_and_b;;
  _run_special solver x0 (Fin 1);;
  soln_get.

End Run.

(** ** What the boundary conditions leave behind

    The contents of [b] and of the matrix behind [A] after [_apply_BCs],
    as functions of their contents before; [_apply_BCs_run] below shows that
    the method computes them. *)

(** The right-hand side after the rate conditions. *)
Definition rate_rhs (rate : option vec) (b : vec) : vec :=
  match rate with
  | Some r => mask_assign b (isfinite <$> r) r
  | None => b
  end.

(** The right-hand side after the value conditions, from the matrix [A]
    before they are applied. *)
Definition value_rhs (value : vec) (A : coo) (b : vec) : vec :=
  let f := mean (coo_diagonal A) in
  let ind := isfinite <$> value in
  let b1 := mask_assign b ind ((λ v, nmul v f) <$> value) in
  mask_sub_not b1 ind (coo_matvec A (mask_assign (zeros_like b1) ind value)).

(** The matrix after the value conditions. *)
Definition value_matrix (value : vec) (A : coo) : coo :=
  let f := mean (coo_diagonal A) in
  let P_bc := to_indices (isfinite <$> value) in
  let Z := coo_zero_rows_cols A P_bc in
  coo_eliminate_zeros
    (coo_setdiag Z (index_assign_scaled_ones (coo_diagonal Z) P_bc f)).

(** In range indices of the stored triples, as SciPy checks them when a
    matrix is made. *)
Definition coo_wf (m : coo) : Prop :=
  Forall (λ e, row e < shape m ∧ col e < shape m) (entries m).

(** The vector [x_BC] of [_apply_BCs]: the given values at the constrained
    pores, zero elsewhere. *)
Definition x_BC (value : vec) (n : nat) : vec :=
  mask_assign (zeros n) (isfinite <$> value) value.

(** ** The pure matrix and the cache *)

(** The matrix [_build_A] computes from the conductance array [g]. *)
Definition pure_matrix (net : Network) (g : vec) : coo :=
  laplacian (adjacency net g).

(** The conductance array the settings point to, if there is one. *)
Definition conductance_array (s : Transport) : option vec :=
  ph ← phase (settings s) ≫= (project s !!.);
  conductance (settings s) ≫= (ph !!.).

(** [n] calls of a method in a row. *)
Fixpoint repeat_call (n : nat) (c : M unit) : M unit :=
  match n with
  | O => mret tt
  | S n => c;; repeat_call n c
  end.

(** The cached pure matrix, when there is one, is the matrix of the
    conductance array [g]. *)
Definition pure_A_ok (s : Transport) (g : vec) : Prop :=
  ∀ p, _pure_A s = Some p → heap s !! p = Some (pure_matrix (network s) g).

(** What the assembly reads and does not write. *)
Definition same_inputs (s s' : Transport) : Prop :=
  phase (settings s') = phase (settings s)
  ∧ quantity (settings s') = quantity (settings s)
  ∧ conductance (settings s') = conductance (settings s)
  ∧ network s' = network s
  ∧ project s' = project s
  ∧ iterative_props s' = iterative_props s
  ∧ props s' = props s
  ∧ soln s' = soln s.

(** ** Sums of conductances over throats *)

Definition Qsum (l : list Qc) : Qc := foldr Qcplus 0%Qc l.

(** The throat with end pores [c] joins pore [i] to pore [j]. *)
Definition joins (i j : nat) (c : nat * nat) : bool :=
  bool_decide ((c.1 = i ∧ c.2 = j) ∨ (c.1 = j ∧ c.2 = i)).

(** The throat with end pores [c] is incident to pore [i]; a throat from a
    pore to itself does not count. *)
Definition incident (i : nat) (c : nat * nat) : bool :=
  bool_decide ((c.1 = i ∨ c.2 = i) ∧ c.1 ≠ c.2).

(** The sum of the conductances of the selected throats. *)
Definition throat_sum (sel : nat * nat → bool) (cs : list (nat * nat))
    (g : list Qc) : Qc :=
  Qsum ((λ t, if sel t.1 then t.2 else 0%Qc) <$> zip cs g).

(** ** Connected pores *)

(** Pores joined by a chain of throats. *)
Inductive linked (cs : list (nat * nat)) : nat → nat → Prop :=
  | linked_refl p : linked cs p p
  | linked_step p q r :
      linked cs p q → (q, r) ∈ cs ∨ (r, q) ∈ cs → linked cs p r.

(** The pores that the flagged pores do not reach. *)
Definition unreached (net : Network) (pores_BC : mask) : list nat :=
  filter (λ p, isin p (reached net pores_BC) = false) (seq 0 (Np net)).

(** An array of conditions with its infinite entries taken out, that is
    replaced by NaN. *)
Definition drop_infinite (v : vec) : vec :=
  (λ a, if isfinite a then a else NaN) <$> v.

(** A method that leaves alone what the assembly only reads, the arrays of
    the algorithm and the solution container, however it ends. *)
Definition keeps_inputs {A} (c : M A) : Prop :=
  ∀ s s' r, c s = (s', r) → same_inputs s s'.

(** ** Concrete algorithms

    The scenario of the specification: a chain of three pores 0 - 1 - 2 with
    conductance 2 on both throats, the value 10 fixed at pore 0 and the
    value 0 at pore 2. *)

Definition qz (z : Z) : num := Fin (Q2Qc (inject_Z z)).

Definition chain3 : Network := {| Np := 3; conns := [(0, 1); (1, 2)] |}.

Definition chain3_alg : Transport := {|
  settings := {| phase := Some "air"; quantity := Some "pore.concentration";
                 conductance := Some "throat.diffusive_conductance";
                 cache := true |};
  network := chain3;
  project := {[ "air" := {[ "throat.diffusive_conductance" := [qz 2; qz 2] ]} ]};
  iterative_props := [];
  props := <["pore.bc.rate" := [NaN; NaN; NaN]]>
             {[ "pore.bc.value" := [qz 10; NaN; qz 0] ]};
  heap := []; _A := None; _b := None; _pure_A := None; _pure_b := None;
  soln := None
|}.

(** The same algorithm once [A] and [b] are built, before the conditions
    are applied. *)
Definition chain3_built : Transport := ((_build_A;; _build_b) chain3_alg).1.

(** The same chain with a rate condition at pore 1 and no value condition. *)
Definition chain3_rate : Transport :=
  set_props (<["pore.bc.rate" := [NaN; qz 7; PInf]]>
               {[ "pore.bc.value" := [NaN; NaN; NaN] ]}) chain3_built.

(** The same algorithm as its class leaves it when the caller configures
    neither the quantity nor the conductance. *)
Definition chain3_unconfigured : Transport := {|
  settings := {| phase := Some "air"; quantity := Some "";
                 conductance := Some ""; cache := true |};
  network := chain3;
  project := project chain3_alg;
  iterative_props := [];
  props := props chain3_alg;
  heap := []; _A := None; _b := None; _pure_A := None; _pure_b := None;
  soln := None
|}.

(** The chain after an earlier run: a field and a container are stored. *)
Definition chain3_solved : Transport :=
  set_soln (Some {| solutions := {[ "pore.concentration" := [qz 10; qz 5; qz 0] ]};
                    is_converged := true |})
    (set_props (<["pore.concentration" := [qz 10; qz 5; qz 0]]> (props chain3_alg))
       chain3_alg).

(** Three pores of which pore 2 is cut off, and three pores without any
    throat; pore 0 carries the only condition. *)
Definition cut_alg : Transport :=
  {| settings := settings chain3_alg;
     network := {| Np := 3; conns := [(0, 1)] |};
     project := project chain3_alg; iterative_props := [];
     props := <["pore.bc.rate" := [NaN; NaN; NaN]]>
                {[ "pore.bc.value" := [qz 1; NaN; NaN] ]};
     heap := []; _A := None; _b := None; _pure_A := None; _pure_b := None;
     soln := None |}.

Definition loose_alg : Transport :=
  {| settings := settings chain3_alg;
     network := {| Np := 3; conns := [] |};
     project := project chain3_alg; iterative_props := [];
     props := props cut_alg;
     heap := []; _A := None; _b := None; _pure_A := None; _pure_b := None;
     soln := None |}.

(** The chain with an infinite entry at pore 0 as its only condition. *)
Definition chain3_inf : Transport :=
  set_props (<["pore.bc.rate" := [NaN; NaN; NaN]]>
               {[ "pore.bc.value" := [PInf; NaN; NaN] ]}) chain3_alg.

(** A stand-in for the diagnosis and a solver that returns its guess. *)
Definition plain_diagnose : Transport → exn :=
  λ _, Exception "Found nans in A matrix".

Definition echo_solver : Solver := λ _ _ x0, (x0, 0%Z).

(** Two pores joined by one throat of conductance 2. *)
Definition pair_alg : Transport :=
  {| settings := settings chain3_alg;
     network := {| Np := 2; conns := [(0, 1)] |};
     project := {[ "air" := {[ "throat.diffusive_conductance" := [qz 2] ]} ]};
     iterative_props := [];
     props := <["pore.bc.rate" := [NaN; NaN]]> {[ "pore.bc.value" := [NaN; NaN] ]};
     heap := []; _A := None; _b := None; _pure_A := None; _pure_b := None;
     soln := None |}.

(** The pores of an algorithm that its conditions do not reach. *)
Definition unreached_pores (s : Transport) : list nat :=
  unreached (network s)
    (bc_pores (default [] (props s !! "pore.bc.rate"))
              (default [] (props s !! "pore.bc.value"))).

(** ** Rates: [Transport.rate] and [ParserMixin._parse_indices]

    [rate] reads the algorithm and writes nothing, so it is a function of
    the state.  Besides the exceptions above it can end in NumPy's
    [IndexError] and [AxisError]. *)

Inductive pyexn :=
  | PyExn (e : exn)
  | IndexError
  | AxisError.

Inductive outcome (A : Type) :=
  | Returns (a : A)
  | Fails (e : pyexn).
Arguments Returns {A} a.
Arguments Fails {A} e.

#[global] Instance outcome_ret : MRet outcome := fun A a => Returns a.

#[global] Instance outcome_bind : MBind outcome := fun A B f c =>
  match c with
  | Returns a => f a
  | Fails e => Fails e
  end.

(** What a caller hands in as [pores=] or [throats=]: [None], integers (a
    list or array; [[]] is the default of [rate]), or a boolean mask. *)
Inductive locations :=
  | LocNone
  | LocInts (l : list Z)
  | LocMask (m : mask).

Definition Nt (net : Network) : nat := length (conns net).

(** [self.Ps[m]] and [self.Ts[m]] for a mask [m] of the right length. *)
Definition mask_indices (m : mask) : list Z := Z.of_nat <$> to_indices m.

Definition _parse_indices (net : Network) (indices : locations)
    : outcome (list Z) :=
  match indices with
  | LocNone => Returns []
  | LocInts l => Returns l
  | LocMask m =>
      if bool_decide (length m = Np net) then Returns (mask_indices m)
      else if bool_decide (length m = Nt net) then Returns (mask_indices m)
      else Fails (PyExn (Exception
                   ("Mask of locations must be either " +:+ "Np nor Nt long")))
  end.

(** [v[z]] for a Python integer [z]: a negative index counts from the end,
    an index out of range raises [IndexError]. *)
Definition index_int {A} (v : list A) (z : Z) : outcome A :=
  let n := Z.of_nat (length v) in
  let k := if bool_decide (z < 0)%Z then (n + z)%Z else z in
  if bool_decide (0 ≤ k < n)%Z then
    match v !! Z.to_nat k with
    | Some a => Returns a
    | None => Fails IndexError
    end
  else Fails IndexError.

(** [v[idx]] for an integer array [idx]. *)
Fixpoint take_at {A} (v : list A) (idx : list Z) : outcome (list A) :=
  match idx with
  | [] => Returns []
  | z :: idx => a ← index_int v z; r ← take_at v idx; Returns (a :: r)
  end.

(** [x[P12]]: the values of [x] at the two ends of each throat. *)
Fixpoint take_pairs (x : vec) (P12 : list (nat * nat)) : outcome (list (num * num)) :=
  match P12 with
  | [] => Returns []
  | c :: P12 =>
      a ← index_int x (Z.of_nat c.1);
      b ← index_int x (Z.of_nat c.2);
      r ← take_pairs x P12;
      Returns ((a, b) :: r)
  end.

(** [np.add.at(a, idx, vals)]: [a[idx[k]] += vals[k]] for each [k] in
    turn. *)
Fixpoint add_at (a : vec) (idx : list nat) (vals : vec) : outcome vec :=
  match idx, vals with
  | i :: idx, v :: vals =>
      if bool_decide (i < length a)
      then add_at (<[i := nadd (vget a i) v]> a) idx vals
      else Fails IndexError
  | _, _ => Returns a
  end.

(** [np.absolute]. *)
Definition nabs (x : num) : num :=
  match x with
  | Fin q => Fin (Qcabs q)
  | PInf | NInf => PInf
  | NaN => NaN
  end.

(** [np.diff(g * X12, axis=1)] for [g] tiled to two columns and flipped:
    per throat, [g * x[q] - g * x[p]]. *)
Definition throat_flows (g : vec) (X12 : list (num * num)) : vec :=
  zip_with (λ gt xs, nsub (nmul gt xs.2) (nmul gt xs.1)) g X12.

(** [R] summed when [mode == 'group'], and made an array. *)
Definition by_mode (mode : string) (R : vec) : vec :=
  if bool_decide (mode = "group") then [nsum R] else R.

(** [Transport.rate].  The conductance array holds one value per throat, as
    in the assembly; an array of another length stays one-dimensional and
    [np.flip(g, axis=1)] raises.  With a single throat [squeeze] makes [Qt]
    a scalar, which cannot be indexed by [throats]. *)
Definition rate (pores throats : locations) (mode : string) (s : Transport)
    : outcome vec :=
  pores ← _parse_indices (network s) pores;
  throats ← _parse_indices (network s) throats;
  if bool_decide (0 < length throats) && bool_decide (0 < length pores) then
    Fails (PyExn (Exception "Must specify either pores or throats, not both"))
  else if bool_decide (length throats = 0) && bool_decide (length pores = 0) then
    Fails (PyExn (Exception "Must specify either pores or throats"))
  else
    match phase (settings s) ≫= (project s !!.) with
    | None => Fails (PyExn (KeyError (phase (settings s))))
    | Some ph =>
        match conductance (settings s) ≫= (ph !!.) with
        | None => Fails (PyExn (KeyError (conductance (settings s))))
        | Some g =>
            let P12 := conns (network s) in
            match quantity (settings s) ≫= (props s !!.) with
            | None => Fails (PyExn (KeyError (quantity (settings s))))
            | Some x =>
                X12 ← take_pairs x P12;
                if bool_decide (length g = Nt (network s)) then
                  let Qt := throat_flows g X12 in
                  if bool_decide (0 < length throats) then
                    if bool_decide (Nt (network s) = 1) then Fails IndexError
                    else
                      R ← take_at Qt throats;
                      Returns (by_mode mode (nabs <$> R))
                  else
                    Qp ← add_at (zeros (Np (network s))) (fst <$> P12)
                            (nopp <$> Qt);
                    Qp ← add_at Qp (snd <$> P12) Qt;
                    R ← take_at Qp pores;
                    Returns (by_mode mode R)
                else Fails AxisError
            end
        end
    end.

(** The value of a finite field at a pore, and the flow
    [g * x[q] - g * x[p]] through a throat with end pores [(p, q)] and
    conductance [g]. *)
Definition qget (x : list Qc) (k : nat) : Qc := default 0%Qc (x !! k).

Definition flow (x : list Qc) (t : nat * nat * Qc) : Qc :=
  (t.2 * qget x t.1.2 - t.2 * qget x t.1.1)%Qc.

(** The throats of a network join pores of the network. *)
Definition network_wf (net : Network) : Prop :=
  Forall (λ c, c.1 < Np net ∧ c.2 < Np net) (conns net).

(** The contents of [A] and [b] after one assembly, from the pure matrix
    [P], the two condition arrays and the number of pores. *)
Definition assembled_A (value : option vec) (P : coo) : coo :=
  match value with
  | Some v => value_matrix v P
  | None => P
  end.

Definition assembled_b (rate value : option vec) (P : coo) (n : nat) : vec :=
  match value with
  | Some v => value_rhs v P (rate_rhs rate (zeros n))
  | None => rate_rhs rate (zeros n)
  end.

(** Two pores and their single throat, with a field stored; and the built
    chain after the conductance array has been taken off its phase. *)
Definition pair_solved : Transport :=
  set_props (<["pore.concentration" := [qz 1; qz 0]]> (props pair_alg)) pair_alg.

Definition chain3_cached : Transport :=
  {| settings := settings chain3_built; network := network chain3_built;
     project := {[ "air" := ∅ ]};
     iterative_props := iterative_props chain3_built;
     props := props chain3_built; heap := heap chain3_built;
     _A := _A chain3_built; _b := _b chain3_built;
     _pure_A := _pure_A chain3_built; _pure_b := _pure_b chain3_built;
     soln := soln chain3_built |}.

(** Two pores without a throat between them, the value 1 fixed at pore 0,
    with [A] and [b] built. *)
Definition isolated_built : Transport :=
  ((_build_A;; _build_b)
     {| settings := settings chain3_alg;
        network := {| Np := 2; conns := [] |};
        project := {[ "air" := {[ "throat.diffusive_conductance" := [] ]} ]};
        iterative_props := [];
        props := <["pore.bc.rate" := [NaN; NaN]]>
                   {[ "pore.bc.value" := [qz 1; NaN] ]};
        heap := []; _A := None; _b := None; _pure_A := None; _pure_b := None;
        soln := None |}).1.

(** The chain with an infinite conductance on its first throat, a rate
    condition at pore 1 and no value condition, with [A] and [b] built. *)
Definition chain3_inf_conductance : Transport :=
  ((_build_A;; _build_b)
     {| settings := settings chain3_alg;
        network := chain3;
        project := {[ "air" := {[ "throat.diffusive_conductance" := [PInf; qz 2] ]} ]};
        iterative_props := [];
        props := <["pore.bc.rate" := [NaN; qz 7; NaN]]>
                   {[ "pore.bc.value" := [NaN; NaN; NaN] ]};
        heap := []; _A := None; _b := None; _pure_A := None; _pure_b := None;
        soln := None |}).1.

(** ** The assembly on binary64 numbers

    [num] computes with exact rationals.  What the program stores is the
    binary64 rounding of each sum, product and quotient, so the parts of the
    assembly whose outcome depends on rounding are written a second time over
    Rocq's primitive binary64 numbers, operation for operation as above.  The
    order in which NumPy and SciPy add the terms of a sum is theirs to choose;
    the sums evaluated on this model below have at most two terms that are
    not zero, or are exact, so every order gives the same number. *)
Module Float64.
Import PrimFloat FloatOps SpecFloat.

Abbreviation fvec := (list float).

Definition zero : float := 0%float.
Definition one : float := 1%float.

(** The count of an array as a float, as [np.mean] divides by it. *)
Definition of_count (n : nat) : float := of_uint63 (Uint63.of_Z (Z.of_nat n)).

Definition isfinite (x : float) : bool := negb (is_nan x || is_infinity x).

(** [x != 0]. *)
Definition nonzero (x : float) : bool := negb (eqb x zero).

Definition fget (v : fvec) (k : nat) : float := default nan (v !! k).

Definition fsum (v : fvec) : float := foldl add zero v.

Definition zeros (n : nat) : fvec := replicate n zero.

Definition zeros_like (v : fvec) : fvec := zeros (length v).

Definition mean (v : fvec) : float :=
  match length v with
  | O => nan
  | S n => div (fsum v) (of_count (S n))
  end.

Definition mask_assign (b : fvec) (ind : mask) (vals : fvec) : fvec :=
  imap (fun k x => if mget ind k then fget vals k else x) b.

Definition mask_sub_not (b : fvec) (ind : mask) (t : fvec) : fvec :=
  imap (fun k x => if mget ind k then x else sub x (fget t k)) b.

Definition index_assign_scaled_ones (d : fvec) (P : list nat) (f : float) : fvec :=
  imap (fun k x => if isin k P then mul one f else x) d.

Record entry := Entry { row : nat; col : nat; data : float }.

Record coo := Coo { shape : nat; entries : list entry }.

Definition coo_get (m : coo) (i j : nat) : float :=
  fsum (data <$> filter (fun e => row e = i ∧ col e = j) (entries m)).

Definition coo_diagonal (m : coo) : fvec :=
  (fun k => coo_get m k k) <$> seq 0 (shape m).

Definition coo_row_dot (m : coo) (x : fvec) (i : nat) : float :=
  fsum ((fun e => mul (data e) (fget x (col e)))
          <$> filter (fun e => row e = i) (entries m)).

Definition coo_matvec (m : coo) (x : fvec) : fvec :=
  coo_row_dot m x <$> seq 0 (shape m).

Definition coo_sum_axis0 (m : coo) : fvec :=
  (fun j => fsum (data <$> filter (fun e => col e = j) (entries m)))
    <$> seq 0 (shape m).

Definition coo_setdiag (m : coo) (values : fvec) : coo :=
  let max_index := shape m `min` length values in
  Coo (shape m)
      (filter (fun e => col e ≠ row e ∨ max_index ≤ row e) (entries m)
       ++ imap (fun k v => Entry k k v) (take max_index values)).

Definition coo_eliminate_zeros (m : coo) : coo :=
  Coo (shape m) (filter (fun e => nonzero (data e) = true) (entries m)).

Definition coo_zero_rows_cols (m : coo) (P : list nat) : coo :=
  Coo (shape m)
      ((fun e => if isin (row e) P || isin (col e) P
                 then Entry (row e) (col e) zero else e) <$> entries m).

Definition coo_negate (m : coo) : coo :=
  Coo (shape m)
      ((fun e => Entry (row e) (col e) (mul (data e) (opp one))) <$> entries m).

Definition laplacian (m : coo) : coo :=
  let w := zip_with sub (coo_sum_axis0 m) (coo_diagonal m) in
  coo_setdiag (coo_negate m) w.

(** Modelled from the spec: [Network.create_adjacency_matrix], as
    [adjacency] above. *)
Definition adjacency (net : Network) (weights : fvec) : coo :=
  Coo (Np net)
      (zip_with (fun c w => Entry c.1 c.2 w) (conns net) weights
       ++ zip_with (fun c w => Entry c.2 c.1 w) (conns net) weights).

(** The matrix [_build_A] computes from the conductance array [g]. *)
Definition pure_matrix (net : Network) (g : fvec) : coo :=
  laplacian (adjacency net g).

(** [_apply_BCs] on the matrix behind [self.A] and the array [self.b]:
    the two objects the method writes, before and after. *)
Definition _apply_BCs (rate value : option fvec) (A : coo) (b : fvec)
  : coo * fvec :=
  let b := match rate with
           | Some rate => mask_assign b (isfinite <$> rate) rate
           | None => b
           end in
  match value with
  | Some value =>
      let f := mean (coo_diagonal A) in
      let ind := isfinite <$> value in
      let b := mask_assign b ind ((fun v => mul v f) <$> value) in
      let x_BC := mask_assign (zeros_like b) ind value in
      let b := mask_sub_not b ind (coo_matvec A x_BC) in
      let P_bc := to_indices ind in
      let A := coo_zero_rows_cols A P_bc in
      let datadiag := index_assign_scaled_ones (coo_diagonal A) P_bc f in
      let A := coo_setdiag A datadiag in
      (coo_eliminate_zeros A, b)
  | None => (A, b)
  end.

(** The number a binary64 value stands for. *)
Definition exact (x : float) : num :=
  match Prim2SF x with
  | S754_zero _ => Fin 0
  | S754_infinity s => if s then NInf else PInf
  | S754_nan => NaN
  | S754_finite s m e =>
      let z := if s then Z.neg m else Z.pos m in
      Fin (if (0 <=? e)%Z then Q2Qc (inject_Z (z * 2 ^ e))
           else Q2Qc (z # Z.to_pos (2 ^ (- e))))
  end.

(** The float of a small whole number. *)
Definition fz (z : Z) : float :=
  if (0 <=? z)%Z then of_uint63 (Uint63.of_Z z)
  else opp (of_uint63 (Uint63.of_Z (- z))).

End Float64.

(** A stored binary64 matrix with every value replaced by the number it
    stands for. *)
Definition exact_coo (m : Float64.coo) : coo :=
  Coo (Float64.shape m)
    ((fun e => Entry (Float64.row e) (Float64.col e)
                 (Float64.exact (Float64.data e))) <$> Float64.entries m).

(** * Properties *)

(** ** Arithmetic of [num] *)

Lemma nadd_comm x y : nadd x y = nadd y x.
Proof. destruct x, y; simpl; try done. f_equal. ring. Qed.

Lemma nadd_assoc x y z : nadd x (nadd y z) = nadd (nadd x y) z.
Proof. destruct x, y, z; simpl; try done. f_equal. ring. Qed.

Lemma nadd_0_r x : nadd x (Fin 0) = x.
Proof. destruct x; simpl; try done. f_equal. ring. Qed.

Lemma nadd_0_l x : nadd (Fin 0) x = x.
Proof. by rewrite nadd_comm, nadd_0_r. Qed.

Lemma nsub_0_r x : nsub x (Fin 0) = x.
Proof. destruct x; simpl; try done. unfold nsub. simpl. f_equal. ring. Qed.

Lemma scale_inf_1 p : scale_inf p 1 = if p then PInf else NInf.
Proof. by destruct p. Qed.

Lemma nmul_1_l x : nmul (Fin 1) x = x.
Proof. destruct x; simpl; try done. f_equal. ring. Qed.

Lemma nmul_fin_0_r x : isfinite x = true → nmul x (Fin 0) = Fin 0.
Proof. destruct x; simpl; try done. intros _. f_equal. ring. Qed.

Lemma Fin_inj a b : Fin a = Fin b → a = b.
Proof. by intros [= ->]. Qed.

Lemma isfinite_Fin x : isfinite x = true → ∃ q, x = Fin q.
Proof. destruct x; simpl; try done. eauto. Qed.

Lemma nsum_cons a v : nsum (a :: v) = nadd a (nsum v).
Proof. done. Qed.

Lemma nsum_app u v : nsum (u ++ v) = nadd (nsum u) (nsum v).
Proof.
  induction u as [|a u IH].
  - symmetry. apply nadd_0_l.
  - change ((a :: u) ++ v) with (a :: (u ++ v)).
    by rewrite !nsum_cons, IH, nadd_assoc.
Qed.

Lemma nsum_zeros (v : vec) : Forall (λ a, a = Fin 0) v → nsum v = Fin 0.
Proof.
  induction 1 as [|a v -> _ IH]; [done|].
  rewrite nsum_cons, IH. apply nadd_0_l.
Qed.

(** ** Vectors *)

Lemma vget_lookup (v : vec) k a : v !! k = Some a → vget v k = a.
Proof. unfold vget. by intros ->. Qed.

Lemma vget_fmap_seq (f : nat → num) n k : k < n → vget (f <$> seq 0 n) k = f k.
Proof.
  intros Hk. apply vget_lookup. rewrite list_lookup_fmap.
  by rewrite lookup_seq_lt.
Qed.

Lemma mget_fmap (f : num → bool) (v : vec) k :
  f NaN = false → mget (f <$> v) k = f (vget v k).
Proof.
  intros Hf. unfold mget, vget. rewrite list_lookup_fmap.
  by destruct (v !! k).
Qed.

Lemma mget_isfinite (v : vec) k : mget (isfinite <$> v) k = isfinite (vget v k).
Proof. by apply mget_fmap. Qed.

Lemma vget_imap (f : nat → num → num) (v : vec) k :
  k < length v → vget (imap f v) k = f k (vget v k).
Proof.
  intros Hk. destruct (lookup_lt_is_Some_2 v k Hk) as [a Ha].
  unfold vget. by rewrite list_lookup_imap, Ha.
Qed.

Lemma vget_zeros n k : k < n → vget (zeros n) k = Fin 0.
Proof. intros Hk. apply vget_lookup. by apply lookup_replicate_2. Qed.

Lemma length_zeros n : length (zeros n) = n.
Proof. apply length_replicate. Qed.

Lemma vget_fmap (f : num → num) (v : vec) k :
  k < length v → vget (f <$> v) k = f (vget v k).
Proof.
  intros Hk. destruct (lookup_lt_is_Some_2 v k Hk) as [a Ha].
  unfold vget. by rewrite list_lookup_fmap, Ha.
Qed.

Lemma elem_of_to_indices (ind : mask) k : k ∈ to_indices ind ↔ mget ind k = true.
Proof.
  unfold to_indices. rewrite list_elem_of_filter, elem_of_seq. split.
  - by intros [? _].
  - intros Hk. split; [done|]. split; [lia|]. simpl.
    unfold mget in Hk. destruct (ind !! k) eqn:E; [|done].
    by apply lookup_lt_Some in E.
Qed.

Lemma isin_to_indices (ind : mask) k : isin k (to_indices ind) = mget ind k.
Proof.
  unfold isin. destruct (mget ind k) eqn:E.
  - apply bool_decide_eq_true. by apply elem_of_to_indices.
  - apply bool_decide_eq_false. rewrite elem_of_to_indices. congruence.
Qed.

(** ** Stored triples *)

Lemma nsum_nil : nsum [] = Fin 0.
Proof. done. Qed.

Ltac nsum_norm :=
  rewrite ?fmap_nil, ?fmap_cons, ?nsum_cons, ?nsum_nil, ?nadd_0_l, ?nadd_0_r.

Lemma filter_diag_triples (Q : entry → Prop) `{!∀ e, Decision (Q e)}
    (vals : vec) (n i : nat) :
  (∀ k v, Q (Entry k k v) ↔ k = i) →
  filter Q (imap (λ k v, Entry (n + k) (n + k) v) vals)
  = if decide (n ≤ i < n + length vals)
    then [Entry i i (vget vals (i - n))] else [].
Proof.
  intros HQ. revert n. induction vals as [|a vals IH]; intros n.
  - simpl. case_decide; [lia|done].
  - rewrite imap_cons, filter_cons.
    rewrite (imap_ext _ (λ k v, Entry (S n + k) (S n + k) v));
      [|intros k v _; simpl; f_equal; lia].
    rewrite IH. replace (n + 0) with n by lia. simpl length.
    destruct (decide (n = i)) as [->|Hne].
    + rewrite decide_True by (by apply HQ).
      rewrite decide_False by lia. rewrite decide_True by lia.
      by rewrite Nat.sub_diag.
    + rewrite decide_False by (rewrite HQ; lia).
      destruct (decide (S n ≤ i < S n + length vals)).
      * rewrite decide_True by lia.
        by replace (i - n) with (S (i - S n)) by lia.
      * by rewrite decide_False by lia.
Qed.

Lemma filter_diag_triples_none (Q : entry → Prop) `{!∀ e, Decision (Q e)}
    (vals : vec) :
  (∀ k v, ¬ Q (Entry k k v)) →
  filter Q (imap (λ k v, Entry k k v) vals) = [].
Proof.
  intros HQ. apply elem_of_nil_inv. intros e.
  rewrite list_elem_of_filter, elem_of_lookup_imap.
  intros [He (k & v & -> & _)]. by apply HQ in He.
Qed.

Lemma filter_diag_triples_0 (Q : entry → Prop) `{!∀ e, Decision (Q e)}
    (vals : vec) (i : nat) :
  (∀ k v, Q (Entry k k v) ↔ k = i) → i < length vals →
  filter Q (imap (λ k v, Entry k k v) vals) = [Entry i i (vget vals i)].
Proof.
  intros HQ Hi.
  pose proof (filter_diag_triples Q vals 0 i HQ) as Hf. simpl in Hf.
  rewrite Hf, decide_True by lia. by rewrite Nat.sub_0_r.
Qed.

(** Dropping the explicit zeros leaves every sum of stored values as it
    was. *)
Lemma nsum_filter_nonzero (Q : entry → Prop) `{!∀ e, Decision (Q e)}
    (es : list entry) :
  nsum (data <$> filter Q (filter (λ e, nonzero (data e) = true) es))
  = nsum (data <$> filter Q es).
Proof.
  induction es as [|e es IH]; [done|].
  rewrite !filter_cons. destruct (decide (nonzero (data e) = true)) as [Hz|Hz].
  - rewrite filter_cons. case_decide; [|done].
    by rewrite !fmap_cons, !nsum_cons, IH.
  - rewrite IH. case_decide; [|done].
    rewrite fmap_cons, nsum_cons.
    destruct (data e) as [q| | |]; simpl in Hz; try done.
    apply not_true_is_false, negb_false_iff, bool_decide_eq_true in Hz.
    subst q. by rewrite nadd_0_l.
Qed.

Lemma coo_get_eliminate_zeros m i j :
  coo_get (coo_eliminate_zeros m) i j = coo_get m i j.
Proof. apply nsum_filter_nonzero. Qed.

Lemma coo_get_setdiag_diag m (vals : vec) i :
  i < shape m → i < length vals →
  coo_get (coo_setdiag m vals) i i = vget vals i.
Proof.
  intros Hs Hv. unfold coo_get, coo_setdiag. cbn [entries shape].
  rewrite filter_app, fmap_app, nsum_app.
  rewrite (filter_diag_triples_0 _ _ i).
  - rewrite list_filter_filter.
    replace (filter _ (entries m)) with (@nil entry).
    + nsum_norm. cbn [data].
      unfold vget. by rewrite lookup_take_lt by lia.
    + symmetry. apply elem_of_nil_inv. intros e.
      rewrite list_elem_of_filter. unfold at_pos.
      rewrite andb_true_iff, !bool_decide_eq_true. lia.
  - intros k v. unfold at_pos. simpl.
    rewrite andb_true_iff, !bool_decide_eq_true. lia.
  - rewrite length_take. lia.
Qed.

Lemma coo_get_setdiag_off m (vals : vec) i j :
  i ≠ j →
  coo_get (coo_setdiag m vals) i j = coo_get m i j.
Proof.
  intros Hij. unfold coo_get, coo_setdiag. cbn [entries shape].
  rewrite filter_app, fmap_app, nsum_app.
  rewrite filter_diag_triples_none.
  - nsum_norm. rewrite list_filter_filter. do 2 f_equal.
    apply list_filter_iff. intros e. unfold at_pos.
    rewrite andb_true_iff, !bool_decide_eq_true. lia.
  - intros k v. unfold at_pos. simpl.
    rewrite andb_true_iff, !bool_decide_eq_true. lia.
Qed.

Lemma length_coo_diagonal m : length (coo_diagonal m) = shape m.
Proof. unfold coo_diagonal. by rewrite length_fmap, length_seq. Qed.

Lemma vget_coo_diagonal m k : k < shape m → vget (coo_diagonal m) k = coo_get m k k.
Proof. intros Hk. unfold coo_diagonal. by rewrite vget_fmap_seq. Qed.

(** ** Running the methods *)

Lemma bind_ok {A B} (c : M A) (k : A → M B) s s' a :
  c s = (s', Ok a) → (c ≫= k) s = k a s'.
Proof. intros H. unfold mbind, M_bind. by rewrite H. Qed.

Lemma bind_raise {A B} (c : M A) (k : A → M B) s s' e :
  c s = (s', Raise e) → (c ≫= k) s = (s', Raise e).
Proof. intros H. unfold mbind, M_bind. by rewrite H. Qed.

Ltac run_once :=
  cbv beta iota delta
    [b_update A_update A_get b_get load store modify get getitem setitem
     x_get x_set dict_get raise lift alloc mbind M_bind mret M_ret];
  cbn [settings network project iterative_props props heap _A _b _pure_A
       _pure_b soln set_cache set_props set_heap set_A set_b set_pure_A
       set_pure_b set_soln phase quantity conductance cache default
       option_bind from_option negb].

Ltac run_step := run_once; repeat progress run_once.

Lemma _apply_BCs_run s l A b :
  _A s = Some l → heap s !! l = Some A → _b s = Some b →
  _apply_BCs s =
    (match props s !! "pore.bc.value" with
     | Some value =>
         set_heap (<[l := value_matrix value A]> (heap s))
           (set_b (Some (value_rhs value A
                           (rate_rhs (props s !! "pore.bc.rate") b))) s)
     | None => set_b (Some (rate_rhs (props s !! "pore.bc.rate") b)) s
     end, Ok tt).
Proof.
  destruct s as [st net prj ips pr h a b0 pa pb so]. cbn. intros -> Hl ->.
  assert (l < length h) as Hlt by (by eapply lookup_lt_Some).
  unfold _apply_BCs. run_step.
  destruct (pr !! "pore.bc.rate") as [rate|]; run_step;
    (destruct (pr !! "pore.bc.value") as [value|]; run_step; [|done]).
  all: rewrite Hl; run_step.
  all: rewrite !list_lookup_insert_eq by (by rewrite ?length_insert); run_step.
  all: by rewrite !list_insert_insert_eq.
Qed.

(** ** The matrix after the value conditions *)

Lemma zeroed_triple (A : coo) (P : list nat) e :
  e ∈ entries (coo_zero_rows_cols A P) →
  (isin (row e) P || isin (col e) P = true → data e = Fin 0)
  ∧ ∃ e0, e0 ∈ entries A ∧ row e = row e0 ∧ col e = col e0
          ∧ (isin (row e) P || isin (col e) P = false → e = e0).
Proof.
  cbn [coo_zero_rows_cols entries]. rewrite list_elem_of_fmap.
  intros (e0 & -> & He0).
  destruct (isin (row e0) P || isin (col e0) P) eqn:E; cbn [row col data].
  - rewrite E. split; [done|]. exists e0. by repeat split.
  - rewrite E. split; [done|]. exists e0. by repeat split.
Qed.

Lemma coo_get_zeroed (A : coo) (P : list nat) i j :
  isin i P || isin j P = true →
  coo_get (coo_zero_rows_cols A P) i j = Fin 0.
Proof.
  intros HP. unfold coo_get. apply nsum_zeros, Forall_fmap, Forall_forall.
  intros e [Hpos He]%list_elem_of_filter. simpl.
  apply zeroed_triple in He as [Hz _]. apply Hz.
  unfold at_pos in Hpos.
  apply andb_true_iff in Hpos as [->%bool_decide_eq_true ->%bool_decide_eq_true].
  done.
Qed.

Lemma coo_get_zeroed_other (A : coo) (P : list nat) i j :
  isin i P || isin j P = false →
  coo_get (coo_zero_rows_cols A P) i j = coo_get A i j.
Proof.
  intros HP. unfold coo_get. cbn [coo_zero_rows_cols entries].
  induction (entries A) as [|e es IH]; [done|].
  rewrite fmap_cons, !filter_cons.
  destruct (isin (row e) P || isin (col e) P) eqn:E.
  - rewrite !decide_False; [done| |].
    + unfold at_pos. rewrite andb_true_iff, !bool_decide_eq_true.
      intros [<- <-]. congruence.
    + unfold at_pos. cbn [row col]. rewrite andb_true_iff, !bool_decide_eq_true.
      intros [<- <-]. congruence.
  - case_decide; [|done]. by rewrite !fmap_cons, !nsum_cons, IH.
Qed.

Section ValueMatrix.

Variables (A : coo) (value : vec).
Let n := shape A.
Let f := mean (coo_diagonal A).
Let ind := isfinite <$> value.
Let P_bc := to_indices ind.
Let Z := coo_zero_rows_cols A P_bc.
Let dd := index_assign_scaled_ones (coo_diagonal Z) P_bc f.

Lemma shape_value_matrix : shape (value_matrix value A) = shape A.
Proof. done. Qed.

Lemma vget_dd k : k < n → vget dd k = if mget ind k then f else coo_get Z k k.
Proof.
  intros Hk. unfold dd, index_assign_scaled_ones.
  rewrite vget_imap by (by rewrite length_coo_diagonal).
  unfold P_bc. rewrite isin_to_indices, nmul_1_l.
  by rewrite vget_coo_diagonal.
Qed.

Lemma length_dd : length dd = n.
Proof. unfold dd, index_assign_scaled_ones. by rewrite length_imap, length_coo_diagonal. Qed.

(** Off the diagonal nothing is left in the row and the column of a
    constrained pore. *)
Lemma value_matrix_off i k :
  i ≠ k → mget ind i || mget ind k = true →
  coo_get (value_matrix value A) i k = Fin 0.
Proof.
  intros Hik Hc. unfold value_matrix.
  rewrite coo_get_eliminate_zeros, coo_get_setdiag_off by done.
  apply coo_get_zeroed. by rewrite !isin_to_indices.
Qed.

Lemma value_matrix_off_free i k :
  i ≠ k → mget ind i || mget ind k = false →
  coo_get (value_matrix value A) i k = coo_get A i k.
Proof.
  intros Hik Hc. unfold value_matrix.
  rewrite coo_get_eliminate_zeros, coo_get_setdiag_off by done.
  apply coo_get_zeroed_other. by rewrite !isin_to_indices.
Qed.

Lemma value_matrix_diag i :
  i < n →
  coo_get (value_matrix value A) i i
  = if mget ind i then f else coo_get A i i.
Proof.
  intros Hi. unfold value_matrix.
  rewrite coo_get_eliminate_zeros.
  fold ind. fold P_bc. fold Z. fold f. fold dd.
  rewrite coo_get_setdiag_diag; [|done|by rewrite length_dd].
  rewrite vget_dd by done.
  destruct (mget ind i) eqn:E; [done|].
  apply coo_get_zeroed_other. unfold P_bc. rewrite !isin_to_indices. by rewrite E.
Qed.

(** The stored triples of the row of a constrained pore. *)
Lemma value_matrix_row i :
  i < n → mget ind i = true →
  filter (λ e, row e = i) (entries (value_matrix value A))
  = filter (λ e, nonzero (data e) = true) [Entry i i f].
Proof.
  intros Hi Hc. unfold value_matrix.
  fold ind. fold P_bc. fold Z. fold f. fold dd.
  cbn [coo_eliminate_zeros coo_setdiag entries shape].
  rewrite !filter_app.
  match goal with |- ?l1 ++ ?l2 = _ => assert (l1 = []) as -> end.
  { apply elem_of_nil_inv. intros e.
    rewrite !list_elem_of_filter. intros (Hr & Hnz & _ & He).
    apply zeroed_triple in He as [Hz _].
    rewrite Hz in Hnz.
    - by vm_compute in Hnz.
    - unfold P_bc. rewrite isin_to_indices, Hr, Hc. done. }
  rewrite app_nil_l, !list_filter_filter.
  rewrite (list_filter_iff _ (λ e, nonzero (data e) = true ∧ row e = i))
    by (intros e; tauto).
  rewrite <- list_filter_filter. f_equal.
  rewrite (filter_diag_triples_0 _ _ i).
  - change (shape Z) with n. rewrite length_dd, Nat.min_id.
    unfold vget. rewrite lookup_take_lt by done. fold (vget dd i).
    by rewrite vget_dd, Hc.
  - done.
  - change (shape Z) with n. rewrite length_take, length_dd. lia.
Qed.

End ValueMatrix.

(** ** The product of a finite matrix with a vector *)

Lemma nmul_add_distr_r a b x :
  isfinite a = true → isfinite b = true → isfinite x = true →
  nmul (nadd a b) x = nadd (nmul a x) (nmul b x).
Proof.
  intros [p ->]%isfinite_Fin [q ->]%isfinite_Fin [r ->]%isfinite_Fin.
  simpl. f_equal. ring.
Qed.

Lemma nmul_0_l_fin x : isfinite x = true → nmul (Fin 0) x = Fin 0.
Proof. intros [r ->]%isfinite_Fin. simpl. f_equal. ring. Qed.

Lemma isfinite_nadd a b :
  isfinite a = true → isfinite b = true → isfinite (nadd a b) = true.
Proof. by intros [p ->]%isfinite_Fin [q ->]%isfinite_Fin. Qed.

Lemma isfinite_nsum (v : vec) : all_finite v = true → isfinite (nsum v) = true.
Proof.
  induction v as [|a v IH]; [done|]. cbn [all_finite forallb].
  intros [Ha Hv]%andb_true_iff. rewrite nsum_cons. by apply isfinite_nadd, IH.
Qed.

Lemma all_finite_filter (Q : entry → Prop) `{!∀ e, Decision (Q e)} es :
  all_finite (data <$> es) = true → all_finite (data <$> filter Q es) = true.
Proof.
  unfold all_finite. rewrite !forallb_forall. intros Hall a Ha. apply Hall.
  apply list_elem_of_In. apply list_elem_of_In in Ha.
  apply list_elem_of_fmap in Ha as (e & -> & He).
  apply list_elem_of_filter in He as [_ He].
  apply list_elem_of_fmap. eauto.
Qed.

Lemma isfinite_coo_get m i j :
  all_finite (data <$> entries m) = true → isfinite (coo_get m i j) = true.
Proof. intros H. apply isfinite_nsum. by apply all_finite_filter. Qed.

Lemma nsum_fmap_add {T} (F G : T → num) (l : list T) :
  nsum ((λ k, nadd (F k) (G k)) <$> l) = nadd (nsum (F <$> l)) (nsum (G <$> l)).
Proof.
  induction l as [|a l IH]; [done|].
  rewrite !fmap_cons, !nsum_cons, IH.
  rewrite <- !nadd_assoc. f_equal.
  rewrite !nadd_assoc. f_equal. apply nadd_comm.
Qed.

Lemma nsum_single (F : nat → num) (P : list nat) c :
  NoDup P → (∀ k, k ∈ P → k ≠ c → F k = Fin 0) →
  nsum (F <$> P) = if decide (c ∈ P) then F c else Fin 0.
Proof.
  induction 1 as [|a P Ha HP IH]; intros HF.
  - by rewrite decide_False by apply not_elem_of_nil.
  - rewrite fmap_cons, nsum_cons, IH
      by (intros k Hk; apply HF; by apply list_elem_of_further).
    destruct (decide (a = c)) as [->|Hne].
    + rewrite decide_False by done.
      rewrite decide_True by apply list_elem_of_here. apply nadd_0_r.
    + rewrite HF; [|apply list_elem_of_here|done]. rewrite nadd_0_l.
      destruct (decide (c ∈ P)).
      * by rewrite decide_True by (by apply list_elem_of_further).
      * rewrite decide_False; [done|].
        rewrite elem_of_cons. intros [?|?]; congruence.
Qed.

Lemma coo_get_cons n e es i j :
  coo_get (Coo n (e :: es)) i j
  = nadd (if at_pos i j e then data e else Fin 0) (coo_get (Coo n es) i j).
Proof.
  unfold coo_get. cbn [entries]. rewrite filter_cons.
  destruct (at_pos i j e).
  - by rewrite decide_True by done.
  - rewrite decide_False by done. by rewrite nadd_0_l.
Qed.

(** [(A * x)[j]] is the sum of [A[j,k] * x[k]] over the places [P] where
    [x] is not zero, when the stored values of [A] are finite. *)
Lemma coo_row_dot_sum (A : coo) (x : vec) (j : nat) (P : list nat) :
  all_finite (data <$> entries A) = true →
  NoDup P →
  (∀ k, k ∈ P → isfinite (vget x k) = true) →
  Forall (λ e, col e ∉ P → vget x (col e) = Fin 0) (entries A) →
  coo_row_dot A x j = nsum ((λ k, nmul (coo_get A j k) (vget x k)) <$> P).
Proof.
  intros HA HP Hfin Hzero. destruct A as [n es]. cbn [entries] in HA, Hzero.
  induction es as [|e es IH].
  - symmetry. apply nsum_zeros, Forall_fmap, Forall_forall. intros k Hk. simpl.
    by apply nmul_0_l_fin, Hfin.
  - rewrite fmap_cons in HA. cbn [all_finite forallb] in HA.
    apply andb_true_iff in HA as [Hd HA].
    apply Forall_cons in Hzero as [Hzero Hrest]. specialize (IH HA Hrest).
    assert (∀ k, k ∈ P →
      nmul (coo_get (Coo n (e :: es)) j k) (vget x k)
      = nadd (nmul (if at_pos j k e then data e else Fin 0) (vget x k))
             (nmul (coo_get (Coo n es) j k) (vget x k))) as Hsplit.
    { intros k Hk. rewrite coo_get_cons. apply nmul_add_distr_r.
      - by destruct (at_pos j k e).
      - by apply isfinite_coo_get.
      - by apply Hfin. }
    rewrite (proj1 (Forall_fmap_ext _ _ P))
      by (apply Forall_forall; exact Hsplit).
    rewrite nsum_fmap_add, <- IH.
    unfold coo_row_dot. cbn [entries]. rewrite filter_cons.
    destruct (decide (row e = j)) as [Hr|Hr].
    + rewrite fmap_cons, nsum_cons. f_equal.
      rewrite (nsum_single _ P (col e)); [|done|].
      * unfold at_pos. rewrite !bool_decide_eq_true_2 by done. simpl.
        case_decide; [done|]. rewrite Hzero by done. by apply nmul_fin_0_r.
      * intros k Hk Hne. unfold at_pos.
        rewrite (bool_decide_eq_false_2 (col e = k)) by done.
        rewrite andb_false_r. by apply nmul_0_l_fin, Hfin.
    + rewrite (nsum_zeros (_ <$> P)); [by rewrite nadd_0_l|].
      apply Forall_fmap, Forall_forall. intros k Hk. simpl. unfold at_pos.
      rewrite (bool_decide_eq_false_2 (row e = j)) by done. simpl.
      by apply nmul_0_l_fin, Hfin.
Qed.

(** ** The right-hand side after the value conditions *)

Lemma length_mask_assign b ind vals : length (mask_assign b ind vals) = length b.
Proof. apply length_imap. Qed.

Lemma vget_mask_assign b ind vals k :
  k < length b →
  vget (mask_assign b ind vals) k = if mget ind k then vget vals k else vget b k.
Proof. intros Hk. unfold mask_assign. by rewrite vget_imap. Qed.

Lemma mget_true_lt (m : mask) k : mget m k = true → k < length m.
Proof.
  unfold mget. destruct (m !! k) eqn:E; [|done]. intros _.
  by eapply lookup_lt_Some.
Qed.

Lemma value_rhs_constrained value A b k :
  k < length b → isfinite (vget value k) = true →
  vget (value_rhs value A b) k
  = nmul (vget value k) (mean (coo_diagonal A)).
Proof.
  intros Hk Hc. rewrite <- mget_isfinite in Hc.
  pose proof (mget_true_lt _ _ Hc) as Hlt. rewrite length_fmap in Hlt.
  unfold value_rhs, mask_sub_not.
  rewrite vget_imap by (by rewrite length_mask_assign).
  rewrite Hc, vget_mask_assign, Hc by done.
  by rewrite vget_fmap.
Qed.

Lemma value_rhs_free value A b k :
  k < length b → length b = shape A → isfinite (vget value k) = false →
  vget (value_rhs value A b) k
  = nsub (vget b k) (coo_row_dot A (x_BC value (length b)) k).
Proof.
  intros Hk Hn Hc. rewrite <- mget_isfinite in Hc.
  unfold value_rhs, mask_sub_not.
  rewrite vget_imap by (by rewrite length_mask_assign).
  rewrite Hc, vget_mask_assign, Hc by done. f_equal.
  unfold coo_matvec. rewrite vget_fmap_seq by lia.
  unfold x_BC, zeros_like. by rewrite length_mask_assign.
Qed.

Lemma vget_x_BC value n k :
  k < n →
  vget (x_BC value n) k
  = if isfinite (vget value k) then vget value k else Fin 0.
Proof.
  intros Hk. unfold x_BC.
  rewrite vget_mask_assign by (by rewrite length_zeros).
  by rewrite mget_isfinite, vget_zeros.
Qed.

Lemma NoDup_to_indices ind : NoDup (to_indices ind).
Proof. apply NoDup_filter, NoDup_seq. Qed.

(** The subtracted coupling term, stored value by stored value: the triples
    of the row that lie in a constrained column, each times the value
    prescribed there; the other triples of the row meet a zero of [x_BC]. *)
Lemma coupling_stored A value j :
  all_finite (data <$> entries A) = true → coo_wf A →
  coo_row_dot A (x_BC value (shape A)) j
  = nsum ((λ e, nmul (data e) (vget value (col e)))
            <$> filter (λ e, row e = j ∧ isfinite (vget value (col e)) = true)
                  (entries A)).
Proof.
  unfold coo_row_dot, coo_wf. destruct A as [n es]. cbn [shape entries].
  induction es as [|e es IH]; intros Hfin Hwf; [done|].
  cbn [fmap list_fmap all_finite forallb] in Hfin.
  apply andb_true_iff in Hfin as [He Hfin].
  apply Forall_cons in Hwf as [[_ Hc] Hwf].
  specialize (IH Hfin Hwf). rewrite !filter_cons.
  destruct (decide (row e = j)) as [Hr|Hr].
  - rewrite fmap_cons, nsum_cons, IH, vget_x_BC by done.
    destruct (isfinite (vget value (col e))) eqn:Hv.
    + rewrite decide_True by done. by rewrite fmap_cons, nsum_cons.
    + rewrite decide_False by (intros [_ ?]; done).
      by rewrite nmul_fin_0_r, nadd_0_l.
  - rewrite decide_False by (intros [? _]; done). exact IH.
Qed.

(** C1. A pore [i] with a finite entry [v] in ['pore.bc.value'], in a
    system whose matrix has a finite, nonzero mean diagonal [f]: after
    [_apply_BCs] row [i] and column [i] of [A] are zero off the diagonal,
    [A[i,i] = f], [b[i]] is the product [v * f], every pore [j] without a
    value condition has lost [(A * x_BC)[j]] from [b[j]] (for a finite [A]
    the stored values of row [j] in the constrained columns, each times the
    value prescribed there), and row [i] of the new system applied to any
    [x] is the product [f * x[i]]: the equation of pore [i] reads
    [f * x[i] = v * f].  Every value is given by the operations the code
    applies, in its order; no identity of exact arithmetic is used. *)
Theorem apply_BCs_value_pore s l A b value i v f :
  _A s = Some l → heap s !! l = Some A → _b s = Some b →
  props s !! "pore.bc.value" = Some value →
  length value = shape A → length b = shape A →
  value !! i = Some (Fin v) →
  mean (coo_diagonal A) = Fin f → f ≠ 0%Qc →
  let b0 := rate_rhs (props s !! "pore.bc.rate") b in
  ∃ s' A' b',
    _apply_BCs s = (s', Ok tt)
    ∧ _A s' = Some l ∧ heap s' !! l = Some A' ∧ _b s' = Some b'
    ∧ (∀ k, k ≠ i → coo_get A' i k = Fin 0 ∧ coo_get A' k i = Fin 0)
    ∧ coo_get A' i i = Fin f
    ∧ vget b' i = nmul (Fin v) (Fin f)
    ∧ (∀ j, j < shape A → isfinite (vget value j) = false →
         vget b' j = nsub (vget b0 j) (coo_row_dot A (x_BC value (shape A)) j))
    ∧ (all_finite (data <$> entries A) = true → coo_wf A →
       ∀ j, coo_row_dot A (x_BC value (shape A)) j
            = nsum ((λ e, nmul (data e) (vget value (col e)))
                      <$> filter (λ e, row e = j
                                       ∧ isfinite (vget value (col e)) = true)
                            (entries A)))
    ∧ (∀ x : vec, vget (coo_matvec A' x) i = nmul (Fin f) (vget x i)).
Proof.
  intros HA Hh Hb Hv Hlv Hlb Hi Hf Hf0 b0.
  assert (i < shape A) as Hlt by (rewrite <- Hlv; by eapply lookup_lt_Some).
  assert (vget value i = Fin v) as Hvi by (by apply vget_lookup).
  assert (mget (isfinite <$> value) i = true) as Hci
    by (by rewrite mget_isfinite, Hvi).
  assert (length b0 = shape A) as Hlb0.
  { unfold b0, rate_rhs. destruct (props s !! "pore.bc.rate"); [|done].
    by rewrite length_mask_assign. }
  assert (l < length (heap s)) as Hll by (by eapply lookup_lt_Some).
  eexists _, (value_matrix value A), (value_rhs value A b0).
  rewrite (_apply_BCs_run s l A b), Hv by done.
  split; [done|]. split; [done|].
  split; [cbn; by apply list_lookup_insert_eq|]. split; [done|].
  split; [|split; [|split; [|split; [|split]]]].
  - intros k Hk. split; apply value_matrix_off; try done.
    + by rewrite Hci.
    + rewrite Hci. apply orb_true_r.
  - by rewrite value_matrix_diag, Hci, Hf.
  - by rewrite value_rhs_constrained, Hvi, Hf by (rewrite ?Hvi; done || lia).
  - intros j Hj Hc. rewrite value_rhs_free by (done || lia). by rewrite Hlb0.
  - intros Hfin Hwf j. by apply coupling_stored.
  - intros x. unfold coo_matvec.
    rewrite vget_fmap_seq by (by rewrite shape_value_matrix).
    unfold coo_row_dot. rewrite value_matrix_row, Hf by done.
    rewrite filter_cons, decide_True.
    2:{ simpl. apply negb_true_iff. by apply bool_decide_eq_false. }
    rewrite filter_nil. nsum_norm. by cbn [data col].
Qed.

Lemma coo_row_dot_zero (A : coo) (x : vec) j :
  all_finite (data <$> entries A) = true →
  Forall (λ e, vget x (col e) = Fin 0) (entries A) →
  coo_row_dot A x j = Fin 0.
Proof.
  intros Hfin Hz. rewrite (coo_row_dot_sum A x j []); try done.
  - apply NoDup_nil_2.
  - intros k Hk. by apply not_elem_of_nil in Hk.
  - eapply Forall_impl; [exact Hz|]. by intros e He _.
Qed.

Lemma isnan_not_finite a : isnan a = true → isfinite a = false.
Proof. by destruct a. Qed.

(** C4. Only rate conditions: every entry of ['pore.bc.value'] is NaN,
    and the matrix holds finite values only.  [_apply_BCs] leaves every
    value [A[i,j]] of the matrix as it was, and from the zero vector of
    [_build_b] it makes [b] the rate at the pores with a finite rate and
    zero at the others.  (A matrix with an infinite value turns [b] into NaN
    in the rows that hold it: line 156 subtracts [A * x_BC] whether or not a
    value is prescribed.) *)
Theorem apply_BCs_rate_only s l A value :
  _A s = Some l → heap s !! l = Some A →
  _b s = Some (zeros (shape A)) →
  props s !! "pore.bc.value" = Some value →
  length value = shape A →
  Forall (λ a, isnan a = true) value →
  all_finite (data <$> entries A) = true → coo_wf A →
  ∃ s' A' b',
    _apply_BCs s = (s', Ok tt)
    ∧ _A s' = Some l ∧ heap s' !! l = Some A' ∧ _b s' = Some b'
    ∧ (∀ i j, i < shape A → coo_get A' i j = coo_get A i j)
    ∧ length b' = shape A
    ∧ ∀ k, k < shape A →
        vget b' k
        = match props s !! "pore.bc.rate" with
          | Some rate => if isfinite (vget rate k) then vget rate k else Fin 0
          | None => Fin 0
          end.
Proof.
  intros HA Hh Hb Hv Hlv Hnan Hfin Hwf.
  assert (∀ k, isfinite (vget value k) = false) as Hfree.
  { intros k. unfold vget. destruct (value !! k) as [a|] eqn:E; [|done].
    simpl. apply isnan_not_finite.
    rewrite Forall_forall in Hnan. apply Hnan. by eapply list_elem_of_lookup_2. }
  assert (∀ k, mget (isfinite <$> value) k = false) as Hfree'
    by (intros k; by rewrite mget_isfinite).
  set (b0 := rate_rhs (props s !! "pore.bc.rate") (zeros (shape A))).
  assert (length b0 = shape A) as Hlb0.
  { unfold b0, rate_rhs. destruct (props s !! "pore.bc.rate").
    - by rewrite length_mask_assign, length_zeros.
    - apply length_zeros. }
  eexists _, (value_matrix value A), (value_rhs value A b0).
  rewrite (_apply_BCs_run s l A (zeros (shape A))), Hv by done.
  split; [done|]. split; [done|].
  split; [cbn; apply list_lookup_insert_eq; by eapply lookup_lt_Some|].
  split; [done|]. split; [|split].
  - intros i j Hi. destruct (decide (i = j)) as [<-|Hij].
    + by rewrite value_matrix_diag, Hfree'.
    + apply value_matrix_off_free; [done|]. by rewrite !Hfree'.
  - unfold value_rhs, mask_sub_not. by rewrite length_imap, length_mask_assign.
  - intros k Hk. rewrite value_rhs_free by (done || lia).
    rewrite coo_row_dot_zero; [|done|].
    + rewrite nsub_0_r. unfold b0, rate_rhs.
      destruct (props s !! "pore.bc.rate") as [rate|].
      * rewrite vget_mask_assign by (by rewrite length_zeros).
        by rewrite mget_isfinite, vget_zeros.
      * by apply vget_zeros.
    + eapply Forall_impl; [exact Hwf|]. intros e [_ Hc]. simpl in *.
      rewrite vget_x_BC by lia. by rewrite Hfree.
Qed.

(** ** Building the matrix *)

Lemma _build_A_run s g :
  conductance_array s = Some g →
  length g = length (conns (network s)) →
  _build_A s =
    let s1 := if key_in (conductance (settings s)) (iterative_props s)
              then set_cache false s else s in
    match (if cache (settings s1) then _pure_A s else None) with
    | Some p =>
        (set_A (Some (length (heap s)))
           (set_heap (heap s ++ [default (Coo 0 []) (heap s !! p)]) s1), Ok tt)
    | None =>
        let L := pure_matrix (network s) g in
        (set_A (Some (S (length (heap s))))
           (set_heap (heap s ++ [L; L])
              (set_pure_A (Some (length (heap s))) s1)), Ok tt)
    end.
Proof.
  destruct s as [[ph q c ca] net prj ips pr h a b0 pa pb so].
  unfold conductance_array. cbn. intros Hg Hlen.
  destruct ph as [pn|]; [|done]. cbn in Hg.
  destruct (prj !! pn) as [phm|] eqn:Ephm; [|done]. cbn in Hg.
  destruct c as [gn|]; [|done]. cbn in Hg.
  assert (create_adjacency_matrix net g = Ok (adjacency net g)) as Ham.
  { unfold create_adjacency_matrix. by rewrite bool_decide_eq_true_2. }
  unfold _build_A. run_step.
  destruct (key_in (Some gn) ips); run_step;
    [|destruct ca; run_step; [destruct pa as [p|]; run_step|]].
  2: done.
  all: rewrite Ephm; run_step; rewrite Hg; run_step; rewrite Ham; run_step.
  all: rewrite list_lookup_middle by done; run_step.
  all: by rewrite <- app_assoc, length_app, Nat.add_1_r.
Qed.

Lemma _build_b_run s :
  _build_b s
  = (set_b (Some (zeros (Np (network s))))
       (set_pure_b (Some (zeros (Np (network s)))) s), Ok tt).
Proof. done. Qed.

Lemma same_inputs_conductance_array s s' :
  same_inputs s s' → conductance_array s' = conductance_array s.
Proof.
  intros (Hp & _ & Hc & _ & Hprj & _). unfold conductance_array.
  by rewrite Hp, Hc, Hprj.
Qed.

Lemma same_inputs_trans s1 s2 s3 :
  same_inputs s1 s2 → same_inputs s2 s3 → same_inputs s1 s3.
Proof. unfold same_inputs. intuition congruence. Qed.

Lemma lookup_new_second {T} (h : list T) x y :
  (h ++ [x; y]) !! S (length h) = Some y.
Proof.
  rewrite lookup_app_r by lia.
  by replace (S (length h) - length h) with 1 by lia.
Qed.

(** One assembly: [_build_A] makes [A] a new object holding the pure
    matrix, and the conditions are written into that object only. *)
Lemma _update_A_and_b_pure s g :
  conductance_array s = Some g →
  length g = length (conns (network s)) →
  pure_A_ok s g →
  ∃ s' p l,
    _update_A_and_b s = (s', Ok tt)
    ∧ same_inputs s s'
    ∧ _pure_A s' = Some p ∧ _A s' = Some l ∧ l ≠ p
    ∧ heap s' !! p = Some (pure_matrix (network s) g)
    ∧ (key_in (conductance (settings s)) (iterative_props s) = false →
       cache (settings s) = true →
       cache (settings s') = true
       ∧ ∀ p0, _pure_A s = Some p0 → p = p0).
Proof.
  intros Hg Hlen Hok. unfold _update_A_and_b.
  pose proof (_build_A_run s g Hg Hlen) as HA. cbv zeta in HA.
  destruct s as [[ph q c ca] net prj ips pr h a b0 pa pb so].
  unfold pure_A_ok in Hok. cbn in *.
  destruct (key_in c ips) eqn:Ek; cbn in HA;
    [|destruct ca; [destruct pa as [p0|]|]].
  all: erewrite (bind_ok _build_A) by exact HA.
  all: erewrite (bind_ok _build_b) by apply _build_b_run.
  all: cbn [network set_A set_heap set_pure_A set_b set_pure_b set_cache].
  2:{ (* the cached matrix is used *)
    pose proof (Hok p0 eq_refl) as Hp0. rewrite Hp0 in *. cbn [default].
    assert (p0 < length h) as Hlt by (by eapply lookup_lt_Some).
    erewrite _apply_BCs_run; [|done|by apply list_lookup_middle|done].
    cbn. destruct (pr !! "pore.bc.value"); cbn;
      eexists _, p0, (length h); (split; [done|]);
      (split; [by repeat split|]); (split; [done|]); (split; [done|]);
      (split; [lia|]); cbn.
    - rewrite list_lookup_insert_ne by lia.
      rewrite lookup_app_l by done. split; [done|]. intros _ _. split; [done|].
      by intros ? [= ->].
    - rewrite lookup_app_l by done. split; [done|]. intros _ _. split; [done|].
      by intros ? [= ->]. }
  all: erewrite _apply_BCs_run; [|done|by apply lookup_new_second|done].
  all: cbn; destruct (pr !! "pore.bc.value"); cbn;
    eexists _, (length h), (S (length h)); (split; [done|]);
    (split; [by repeat split|]); (split; [done|]); (split; [done|]);
    (split; [lia|]); cbn.
  all: rewrite ?list_lookup_insert_ne by lia.
  all: rewrite (list_lookup_middle h [_] _ (length h)) by done.
  all: split; [done|]; try done.
  all: by intros _ _.
Qed.

Lemma _build_A_fresh_copy s g :
  conductance_array s = Some g →
  length g = length (conns (network s)) →
  pure_A_ok s g →
  ∃ s' p l,
    _build_A s = (s', Ok tt)
    ∧ _pure_A s' = Some p ∧ _A s' = Some l
    ∧ l ≠ p ∧ length (heap s) ≤ l
    ∧ heap s' !! p = Some (pure_matrix (network s) g)
    ∧ heap s' !! l = Some (pure_matrix (network s) g)
    ∧ ∀ k, k < length (heap s) → heap s' !! k = heap s !! k.
Proof.
  intros Hg Hlen Hok.
  rewrite (_build_A_run s g Hg Hlen). cbv zeta.
  destruct s as [[ph q c ca] net prj ips pr h a b0 pa pb so].
  unfold pure_A_ok in Hok. cbn in *.
  destruct (key_in c ips) eqn:Ek; cbn;
    [|destruct ca; [destruct pa as [p0|]|]]; cbn.
  2:{ pose proof (Hok p0 eq_refl) as Hp0. rewrite Hp0. cbn.
      assert (p0 < length h) as Hlt by (by eapply lookup_lt_Some).
      eexists _, p0, (length h). split; [done|]. cbn.
      rewrite lookup_app_l by done. rewrite list_lookup_middle by done.
      repeat split; try done; try lia.
      intros k Hk. by rewrite lookup_app_l. }
  all: eexists _, (length h), (S (length h)); split; [done|]; cbn.
  all: rewrite lookup_new_second, (list_lookup_middle h [_] _ (length h)) by done.
  all: repeat split; try done; try lia.
  all: intros k Hk; by rewrite lookup_app_l.
Qed.

(** C9. With the conductance array [g] in place and the cache either empty
    or holding the matrix of [g]: [_build_A] makes [A] a new object, apart
    from the cached one, with the same contents; and after any number of
    [_update_A_and_b] calls the cached matrix is still the matrix of [g].
    With caching on it is still the same object. *)
Theorem cached_pure_matrix_intact s g n :
  conductance_array s = Some g →
  length g = length (conns (network s)) →
  pure_A_ok s g →
  (∃ s' p l,
     _build_A s = (s', Ok tt)
     ∧ _pure_A s' = Some p ∧ _A s' = Some l
     ∧ l ≠ p ∧ length (heap s) ≤ l
     ∧ heap s' !! p = Some (pure_matrix (network s) g)
     ∧ heap s' !! l = Some (pure_matrix (network s) g))
  ∧ ∃ s',
      repeat_call n _update_A_and_b s = (s', Ok tt)
      ∧ same_inputs s s'
      ∧ pure_A_ok s' g
      ∧ (0 < n → ∃ p, _pure_A s' = Some p
                      ∧ heap s' !! p = Some (pure_matrix (network s) g))
      ∧ (key_in (conductance (settings s)) (iterative_props s) = false →
         cache (settings s) = true →
         ∀ p0, _pure_A s = Some p0 → _pure_A s' = Some p0).
Proof.
  intros Hg Hlen Hok. split.
  { destruct (_build_A_fresh_copy s g Hg Hlen Hok)
      as (s' & p & l & ? & ? & ? & ? & ? & ? & ? & _).
    by exists s', p, l. }
  revert s Hg Hlen Hok. induction n as [|n IH]; intros s Hg Hlen Hok.
  - exists s. split; [done|]. split; [by repeat split|]. split; [done|].
    split; [lia|]. done.
  - destruct (_update_A_and_b_pure s g Hg Hlen Hok)
      as (s1 & p & l & Hrun & Hsame & Hp & Hl & Hne & Hhp & Hcache).
    assert (network s1 = network s) as Hnet by apply Hsame.
    assert (pure_A_ok s1 g) as Hok1.
    { intros p' Hp'. rewrite Hp in Hp'. injection Hp' as <-. by rewrite Hnet. }
    destruct (IH s1) as (s' & Hrun' & Hsame' & Hok' & Hsome & Hcache').
    { by rewrite (same_inputs_conductance_array s s1). }
    { by rewrite Hnet. }
    { done. }
    exists s'. cbn [repeat_call]. rewrite (bind_ok _ _ _ _ _ Hrun).
    split; [done|]. split; [by eapply same_inputs_trans|].
    split; [done|]. split.
    + intros _. destruct n as [|n].
      * cbn in Hrun'. injection Hrun' as <-. exists p. by rewrite Hp.
      * destruct Hsome as (p' & ? & ?); [lia|]. exists p'. by rewrite <- Hnet.
    + intros Hk Hc p0 Hp0. destruct (Hcache Hk Hc) as [Hc1 Hsamep].
      apply Hcache'; [| done |].
      * destruct Hsame as (_ & _ & -> & _ & _ & -> & _). done.
      * rewrite Hp. f_equal. by apply Hsamep.
Qed.

(** ** The graph Laplacian of finite conductances *)

Lemma Qsum_cons a l : Qsum (a :: l) = (a + Qsum l)%Qc.
Proof. done. Qed.

Lemma Qsum_add {T} (F G : T → Qc) (l : list T) :
  (Qsum (F <$> l) + Qsum (G <$> l))%Qc = Qsum ((λ t, F t + G t)%Qc <$> l).
Proof.
  induction l as [|t l IH]; [cbn; ring|].
  rewrite !fmap_cons, !Qsum_cons, <- IH. ring.
Qed.

Lemma Qsum_opp {T} (F : T → Qc) (l : list T) :
  (- Qsum (F <$> l))%Qc = Qsum ((λ t, - F t)%Qc <$> l).
Proof.
  induction l as [|t l IH]; [cbn; ring|].
  rewrite !fmap_cons, !Qsum_cons, <- IH. ring.
Qed.

Lemma Qsum_ext {T} (F G : T → Qc) (l : list T) :
  (∀ t, F t = G t) → Qsum (F <$> l) = Qsum (G <$> l).
Proof.
  intros HFG. induction l as [|t l IH]; [done|].
  by rewrite !fmap_cons, !Qsum_cons, IH, HFG.
Qed.


(** A filtered sum over triples with finite values. *)
Lemma nsum_filter_fin {T} (Q : entry → Prop) `{!∀ e, Decision (Q e)}
    (mk : T → nat * nat) (w : T → Qc) (l : list T) :
  nsum (data <$> filter Q ((λ t, Entry (mk t).1 (mk t).2 (Fin (w t))) <$> l))
  = Fin (Qsum ((λ t, if decide (Q (Entry (mk t).1 (mk t).2 (Fin (w t))))
                     then w t else 0%Qc) <$> l)).
Proof.
  induction l as [|t l IH]; [done|].
  rewrite !fmap_cons, filter_cons, Qsum_cons. case_decide.
  - by rewrite fmap_cons, nsum_cons, IH.
  - rewrite IH. f_equal. ring.
Qed.

Lemma zip_with_triples (mk : nat * nat → nat * nat) cs (g : list Qc) :
  zip_with (λ c w, Entry (mk c).1 (mk c).2 w) cs (Fin <$> g)
  = (λ t, Entry (mk t.1).1 (mk t.1).2 (Fin t.2)) <$> zip cs g.
Proof.
  revert g. induction cs as [|c cs IH]; intros [|w g]; try done.
  cbn. by rewrite <- IH.
Qed.

Lemma adjacency_entries net (g : list Qc) :
  entries (adjacency net (Fin <$> g))
  = ((λ t, Entry (t.1).1 (t.1).2 (Fin t.2)) <$> zip (conns net) g)
    ++ ((λ t, Entry (prod_swap t.1).1 (prod_swap t.1).2 (Fin t.2))
          <$> zip (conns net) g).
Proof.
  unfold adjacency. cbn [entries].
  rewrite <- (zip_with_triples id), <- (zip_with_triples prod_swap). done.
Qed.

Lemma negate_entries net (g : list Qc) :
  entries (coo_negate (adjacency net (Fin <$> g)))
  = ((λ t, Entry (t.1).1 (t.1).2 (Fin (- t.2))) <$> zip (conns net) g)
    ++ ((λ t, Entry (prod_swap t.1).1 (prod_swap t.1).2 (Fin (- t.2)))
          <$> zip (conns net) g).
Proof.
  unfold coo_negate. cbn [entries]. rewrite adjacency_entries, fmap_app.
  rewrite <- !list_fmap_compose. f_equal.
  - apply list_fmap_ext. intros _ t _. cbn. do 2 f_equal. ring.
  - apply list_fmap_ext. intros _ t _. cbn. do 2 f_equal. ring.
Qed.

Ltac qsum_norm := repeat first [rewrite Qsum_add | rewrite Qsum_opp].

Ltac pos_cases :=
  intros [[? ?] ?]; unfold joins, incident, at_pos; cbn;
  repeat case_decide; repeat case_bool_decide;
  try ring;
  exfalso;
  repeat match goal with
         | H : _ && _ = true |- _ => apply andb_true_iff in H as [? ?]
         | H : ¬ (_ && _ = true) |- _ => rewrite andb_true_iff in H
         | H : bool_decide _ = true |- _ => apply bool_decide_eq_true in H
         | H : context [bool_decide _ = true] |- _ =>
             rewrite bool_decide_eq_true in H
         end;
  intuition lia.

Lemma vget_zip_with (f : num → num → num) (u v : vec) k :
  k < length u → k < length v →
  vget (zip_with f u v) k = f (vget u k) (vget v k).
Proof.
  intros Hu Hv.
  destruct (lookup_lt_is_Some_2 u k Hu) as [a Ha].
  destruct (lookup_lt_is_Some_2 v k Hv) as [c Hc].
  unfold vget. rewrite lookup_zip_with, Ha, Hc. done.
Qed.

Section Laplacian.

Variables (net : Network) (g : list Qc).
Let T := zip (conns net) g.
Let am := adjacency net (Fin <$> g).
Let w := zip_with nsub (coo_sum_axis0 am) (coo_diagonal am).

Lemma length_degrees : length w = Np net.
Proof.
  unfold w. rewrite length_zip_with, length_coo_diagonal.
  unfold coo_sum_axis0. rewrite length_fmap, length_seq. cbn. lia.
Qed.

(** The weights [w] that go on the diagonal. *)
Lemma vget_degrees i :
  i < Np net → vget w i = Fin (throat_sum (incident i) (conns net) g).
Proof.
  intros Hi. unfold w.
  rewrite vget_zip_with.
  2:{ unfold coo_sum_axis0. by rewrite length_fmap, length_seq. }
  2:{ by rewrite length_coo_diagonal. }
  rewrite vget_coo_diagonal by done.
  unfold coo_sum_axis0. rewrite vget_fmap_seq by done.
  unfold coo_get, am. rewrite adjacency_entries.
  rewrite !filter_app, !fmap_app, !nsum_app.
  rewrite !(nsum_filter_fin _ (λ t, t.1) (λ t, t.2)).
  rewrite !(nsum_filter_fin _ (λ t, prod_swap t.1) (λ t, t.2)).
  cbn [nadd nsub nopp]. f_equal. unfold throat_sum.
  qsum_norm. apply Qsum_ext. pos_cases.
Qed.

Lemma pure_matrix_diag i :
  i < Np net →
  coo_get (pure_matrix net (Fin <$> g)) i i
  = Fin (throat_sum (incident i) (conns net) g).
Proof.
  intros Hi. unfold pure_matrix, laplacian. fold am. fold w.
  rewrite coo_get_setdiag_diag; [by apply vget_degrees|done|].
  by rewrite length_degrees.
Qed.

Lemma pure_matrix_off i j :
  i ≠ j →
  coo_get (pure_matrix net (Fin <$> g)) i j
  = Fin (- throat_sum (joins i j) (conns net) g).
Proof.
  intros Hij. unfold pure_matrix, laplacian.
  rewrite coo_get_setdiag_off by done.
  unfold coo_get. rewrite negate_entries.
  rewrite !filter_app, !fmap_app, !nsum_app.
  rewrite (nsum_filter_fin _ (λ t, t.1) (λ t, (- t.2)%Qc)).
  rewrite (nsum_filter_fin _ (λ t, prod_swap t.1) (λ t, (- t.2)%Qc)).
  cbn [nadd]. f_equal. unfold throat_sum.
  qsum_norm. apply Qsum_ext. pos_cases.
Qed.



Lemma all_finite_pure_matrix :
  all_finite (data <$> entries (pure_matrix net (Fin <$> g))) = true.
Proof.
  unfold all_finite. apply forallb_forall. intros a Ha.
  apply list_elem_of_In, list_elem_of_fmap in Ha as (e & -> & He).
  unfold pure_matrix, laplacian in He. fold am in He. fold w in He.
  cbn [coo_setdiag entries] in He.
  apply elem_of_app in He as [He|He].
  - apply list_elem_of_filter in He as [_ He]. unfold am in He.
    rewrite negate_entries in He.
    apply elem_of_app in He as [He|He];
      apply list_elem_of_fmap in He as (t & -> & _); done.
  - apply elem_of_lookup_imap in He as (k & a & -> & Hk). cbn.
    apply lookup_take_Some in Hk as [Hk Hlt].
    assert (k < Np net) as Hk' by (cbn in Hlt; lia).
    pose proof (vget_degrees k Hk') as Hv. unfold vget in Hv.
    rewrite Hk in Hv. cbn in Hv. by rewrite Hv.
Qed.

End Laplacian.

Lemma throat_sum_none (sel : nat * nat → bool) cs (g : list Qc) :
  (∀ t c, cs !! t = Some c → sel c = false) → throat_sum sel cs g = 0%Qc.
Proof.
  unfold throat_sum. revert g.
  induction cs as [|c0 cs IH]; intros g Hnone; [done|].
  destruct g as [|w0 g]; [done|]. cbn [zip zip_with].
  rewrite fmap_cons, Qsum_cons. cbn [fst snd].
  rewrite (Hnone 0 c0 eq_refl), IH; [ring|].
  intros t c Hc. by apply (Hnone (S t)).
Qed.

(** When a single throat is selected, the sum is its conductance. *)
Lemma throat_sum_single (sel : nat * nat → bool) cs (g : list Qc) t c w :
  cs !! t = Some c → g !! t = Some w → sel c = true →
  (∀ t' c', t' ≠ t → cs !! t' = Some c' → sel c' = false) →
  throat_sum sel cs g = w.
Proof.
  revert g t.
  induction cs as [|c0 cs IH]; intros g t Hc Hw Hsel Huniq; [done|].
  destruct g as [|w0 g]; [done|].
  assert (throat_sum sel (c0 :: cs) (w0 :: g)
          = (if sel c0 then w0 else 0) + throat_sum sel cs g)%Qc as -> by done.
  destruct t as [|t].
  - injection Hc as ->. injection Hw as ->. rewrite Hsel.
    rewrite throat_sum_none; [ring|].
    intros t c' Hc'. by apply (Huniq (S t)).
  - rewrite (Huniq 0 c0) by done.
    rewrite (IH g t); [ring|done|done|done|].
    intros t' c' Hne Hc'. apply (Huniq (S t')); [lia|done].
Qed.

(** C2, as the code has it.  The pure matrix [_build_A] makes from finite
    conductances [g]: on the diagonal the sum of the conductances of the
    throats incident to the pore, with its sign unchanged; off the diagonal,
    at pores [i] and [j], minus the sum of the conductances of the throats
    that join them, the same at [(i, j)] and [(j, i)]; that is [-g[t]] when a
    single throat [t] joins them. *)
Theorem build_A_laplacian_entries s (g : list Qc) :
  conductance_array s = Some (Fin <$> g) →
  length g = length (conns (network s)) →
  pure_A_ok s (Fin <$> g) →
  ∃ s' p P,
    _build_A s = (s', Ok tt) ∧ _pure_A s' = Some p ∧ heap s' !! p = Some P
    ∧ (∀ i, i < Np (network s) →
         coo_get P i i = Fin (throat_sum (incident i) (conns (network s)) g))
    ∧ (∀ i j, i ≠ j →
         coo_get P i j = Fin (- throat_sum (joins i j) (conns (network s)) g)
         ∧ coo_get P j i = coo_get P i j)
    ∧ (∀ i j t c w, i ≠ j →
         conns (network s) !! t = Some c → g !! t = Some w →
         joins i j c = true →
         (∀ t' c', t' ≠ t → conns (network s) !! t' = Some c' →
                   joins i j c' = false) →
         coo_get P i j = Fin (- w) ∧ coo_get P j i = Fin (- w)).
Proof.
  intros Hg Hlen Hok.
  destruct (_build_A_fresh_copy s (Fin <$> g) Hg) as
    (s' & p & l & Hrun & Hp & _ & _ & _ & HP & _); [by rewrite length_fmap|done|].
  exists s', p, (pure_matrix (network s) (Fin <$> g)).
  split; [done|]. split; [done|]. split; [done|].
  assert (∀ i j, i ≠ j →
    coo_get (pure_matrix (network s) (Fin <$> g)) i j
      = Fin (- throat_sum (joins i j) (conns (network s)) g)
    ∧ coo_get (pure_matrix (network s) (Fin <$> g)) j i
      = coo_get (pure_matrix (network s) (Fin <$> g)) i j) as Hoff.
  { intros i j Hij. rewrite !pure_matrix_off by done. split; [done|].
    do 2 f_equal. unfold throat_sum. apply Qsum_ext. pos_cases. }
  split; [|split].
  - intros i Hi. by apply pure_matrix_diag.
  - done.
  - intros i j t c w Hij Hc Hw Hsel Huniq.
    destruct (Hoff i j Hij) as [H1 H2]. rewrite H2, H1.
    by rewrite (throat_sum_single _ _ _ t c w).
Qed.


(** ** What the validations leave alone *)

Lemma same_inputs_refl s : same_inputs s s.
Proof. by repeat split. Qed.

Lemma keeps_ret {A} (a : A) : keeps_inputs (mret a).
Proof. intros s s' r [= <- _]. apply same_inputs_refl. Qed.

Lemma keeps_raise {A} e : keeps_inputs (@raise A e).
Proof. intros s s' r [= <- _]. apply same_inputs_refl. Qed.

Lemma keeps_get : keeps_inputs get.
Proof. intros s s' r [= <- _]. apply same_inputs_refl. Qed.

Lemma keeps_lift {A} (r : result A) : keeps_inputs (lift r).
Proof. intros s s' r' [= <- _]. apply same_inputs_refl. Qed.

Lemma keeps_bind {A B} (c : M A) (k : A → M B) :
  keeps_inputs c → (∀ a, keeps_inputs (k a)) → keeps_inputs (c ≫= k).
Proof.
  intros Hc Hk s s' r. unfold mbind, M_bind.
  destruct (c s) as [s1 [a|e]] eqn:E.
  - intros Hrun. eapply same_inputs_trans; [by eapply Hc|by eapply Hk].
  - intros [= <- _]. by eapply Hc.
Qed.

Lemma keeps_modify (f : Transport → Transport) :
  (∀ s, same_inputs s (f s)) → keeps_inputs (modify f).
Proof. intros Hf s s' r [= <- _]. apply Hf. Qed.

Lemma keeps_dict_get {V} (d : gmap string V) key : keeps_inputs (dict_get d key).
Proof. unfold dict_get. destruct (key ≫= _); [apply keeps_ret|apply keeps_raise]. Qed.

Lemma keeps_alloc m : keeps_inputs (alloc m).
Proof. intros s s' r [= <- _]. by repeat split. Qed.

Ltac keeps :=
  repeat first
    [ apply keeps_bind; [|intros ?]
    | apply keeps_get | apply keeps_ret | apply keeps_raise | apply keeps_lift
    | apply keeps_dict_get | apply keeps_alloc
    | apply keeps_modify; intros ?; by repeat split
    | match goal with
      | |- keeps_inputs (match ?x with _ => _ end) => destruct x
      | |- keeps_inputs (if ?x then _ else _) => destruct x
      end ].

Lemma keeps_build_A : keeps_inputs _build_A.
Proof. unfold _build_A, load. keeps. Qed.

Lemma keeps_build_b : keeps_inputs _build_b.
Proof. unfold _build_b. keeps. Qed.

Lemma keeps_A_get : keeps_inputs A_get.
Proof. unfold A_get. keeps; apply keeps_build_A. Qed.

Lemma keeps_b_get : keeps_inputs b_get.
Proof. unfold b_get. keeps; apply keeps_build_b. Qed.

Lemma keeps_validate_topology_health : keeps_inputs _validate_topology_health.
Proof. unfold _validate_topology_health, getitem. keeps. Qed.

Lemma keeps_validate_data_health diagnose :
  keeps_inputs (_validate_data_health diagnose).
Proof.
  unfold _validate_data_health, load.
  keeps; first [apply keeps_validate_topology_health | apply keeps_A_get
               | apply keeps_b_get].
Qed.

Lemma _validate_settings_state s s' r :
  _validate_settings s = (s', r) → s' = s.
Proof.
  unfold _validate_settings. run_step.
  destruct (quantity (settings s)), (conductance (settings s)),
    (phase (settings s)); run_step; by intros [= <- _].
Qed.

Lemma _validate_settings_ok s :
  _validate_settings s = (s, Ok tt) →
  ∃ q c p, quantity (settings s) = Some q ∧ conductance (settings s) = Some c
           ∧ phase (settings s) = Some p.
Proof.
  unfold _validate_settings. run_step.
  destruct (quantity (settings s)), (conductance (settings s)),
    (phase (settings s)); run_step; try done.
  intros _. by eexists _, _, _.
Qed.

(** ** The error paths of [run] *)

Section RunProperties.

Variable diagnose : Transport → exn.
Variable default_solver : Solver.

Lemma run_settings_fail solver x0 s s1 e :
  _validate_settings s = (s1, Raise e) →
  run diagnose default_solver solver x0 s = (s, Raise e).
Proof.
  intros Hv. pose proof (_validate_settings_state _ _ _ Hv) as ->.
  unfold run. by erewrite bind_raise.
Qed.

Lemma run_data_health_fail solver x0 s s1 e :
  _validate_settings s = (s, Ok tt) →
  _validate_data_health diagnose s = (s1, Raise e) →
  run diagnose default_solver solver x0 s = (s1, Raise e).
Proof.
  intros Hv Hd. unfold run.
  erewrite bind_ok by exact Hv. by erewrite bind_raise.
Qed.

Lemma run_x0_fail solver s s1 r v q :
  _validate_settings s = (s, Ok tt) →
  _validate_data_health diagnose s = (s1, Ok r) →
  quantity (settings s) = Some q →
  all_finite v = false →
  run diagnose default_solver solver (Some v) s
  = (set_props (<["pore.initial_guess" := v]> (<[q := v]> (props s1))) s1,
     Raise (Exception "x0 contains inf/nan values")).
Proof.
  intros Hv Hd Hq Hfin.
  assert (quantity (settings s1) = Some q) as Hq1.
  { pose proof (keeps_validate_data_health diagnose _ _ _ Hd) as (_ & -> & _).
    done. }
  unfold run. erewrite bind_ok by exact Hv. erewrite bind_ok by exact Hd.
  unfold _validate_x0. run_step. rewrite Hq1. run_step.
  rewrite lookup_insert_eq. run_step. by rewrite Hfin.
Qed.

End RunProperties.

(** ** Topology validation *)

Lemma linked_trans cs p q r : linked cs p q → linked cs q r → linked cs p r.
Proof.
  intros Hpq Hqr. induction Hqr as [|q r t Hqr IH Hedge]; [done|].
  eapply linked_step; [by apply IH|done].
Qed.

Lemma linked_sym cs p q : linked cs p q → linked cs q p.
Proof.
  induction 1 as [|p q r Hpq IH Hedge]; [apply linked_refl|].
  eapply linked_trans; [|exact IH].
  eapply linked_step; [apply linked_refl|]. tauto.
Qed.

Lemma elem_of_neighbours cs S x :
  x ∈ neighbours cs S → ∃ y, y ∈ S ∧ ((y, x) ∈ cs ∨ (x, y) ∈ cs).
Proof.
  unfold neighbours. rewrite list_elem_of_In, in_flat_map.
  intros ([a c] & Hin & Hx). apply list_elem_of_In in Hin.
  apply list_elem_of_In, elem_of_app in Hx. cbn [fst snd] in Hx.
  unfold isin in Hx. destruct Hx as [Hx|Hx]; case_bool_decide;
    try (by apply not_elem_of_nil in Hx).
  - apply list_elem_of_singleton in Hx as ->. eauto.
  - apply list_elem_of_singleton in Hx as ->. eauto.
Qed.

(** Every pore collected by the rounds is linked to a flagged pore. *)
Lemma iter_grow_linked cs S n x :
  x ∈ Nat.iter n (grow cs) S → ∃ q, q ∈ S ∧ linked cs q x.
Proof.
  revert x. induction n as [|n IH]; intros x; cbn [Nat.iter nat_rect].
  - intros Hx. exists x. split; [done|apply linked_refl].
  - unfold grow at 1. rewrite elem_of_app. intros [Hx|Hx]; [by apply IH|].
    apply elem_of_neighbours in Hx as (y & Hy & Hedge).
    apply IH in Hy as (q & Hq & Hlink). exists q. split; [done|].
    by eapply linked_step.
Qed.

Lemma mget_zip_with_orb (a c : mask) k :
  mget (zip_with orb a c) k = true → mget a k || mget c k = true.
Proof.
  unfold mget. rewrite lookup_zip_with.
  destruct (a !! k), (c !! k); simpl; done.
Qed.

Lemma mget_bc_pores rate value k :
  mget (bc_pores rate value) k = true →
  isnan (vget rate k) = false ∨ isnan (vget value k) = false.
Proof.
  intros H%mget_zip_with_orb.
  rewrite !(mget_fmap (negb ∘ isnan)) in H by done. cbn in H.
  apply orb_true_iff in H as [H|H]; apply negb_true_iff in H; tauto.
Qed.

Lemma mget_bc_pores_2 rate value k :
  k < length rate → k < length value →
  isnan (vget rate k) = false ∨ isnan (vget value k) = false →
  mget (bc_pores rate value) k = true.
Proof.
  intros Hr Hv Hk.
  destruct (lookup_lt_is_Some_2 rate k Hr) as [a Ha].
  destruct (lookup_lt_is_Some_2 value k Hv) as [c Hc].
  unfold vget in Hk. rewrite Ha, Hc in Hk. cbn in Hk.
  unfold bc_pores, mget. rewrite lookup_zip_with, !list_lookup_fmap, Ha, Hc.
  cbn. apply orb_true_iff. destruct Hk as [-> | ->]; auto.
Qed.

Lemma _validate_topology_health_run s rate value :
  props s !! "pore.bc.rate" = Some rate →
  props s !! "pore.bc.value" = Some value →
  _validate_topology_health s
  = (s, if is_fully_connected (network s) (bc_pores rate value)
        then Ok tt else Raise (Exception clustered_msg)).
Proof.
  intros Hr Hv. unfold _validate_topology_health. run_step.
  rewrite Hr. run_step. rewrite Hv. run_step.
  by destruct (is_fully_connected _ _).
Qed.

(** C7, as the code has it.  When the pores linked to some pore [p] carry
    no condition (both arrays are NaN there), topology validation raises;
    what it raises is one fixed text, which points the caller to
    [check_network_health] for the disconnected pores. *)
Theorem validate_topology_health_clustered s rate value p :
  props s !! "pore.bc.rate" = Some rate →
  props s !! "pore.bc.value" = Some value →
  p < Np (network s) →
  (∀ q, linked (conns (network s)) p q →
        isnan (vget rate q) = true ∧ isnan (vget value q) = true) →
  _validate_topology_health s = (s, Raise (Exception clustered_msg)).
Proof.
  intros Hr Hv Hp Hnone.
  rewrite (_validate_topology_health_run s rate value) by done.
  replace (is_fully_connected _ _) with false; [done|].
  symmetry. apply not_true_is_false. unfold is_fully_connected.
  rewrite forallb_forall. intros Hall.
  specialize (Hall p). rewrite in_seq in Hall.
  unfold isin in Hall. rewrite bool_decide_eq_true in Hall.
  destruct (iter_grow_linked _ _ _ _ (Hall ltac:(lia))) as (q & Hq & Hlink).
  apply elem_of_to_indices, mget_bc_pores in Hq.
  destruct (Hnone q (linked_sym _ _ _ Hlink)) as [H1 H2].
  destruct Hq; congruence.
Qed.

(** ** Infinite entries in the condition arrays *)

Lemma isfinite_drop_infinite v : isfinite <$> drop_infinite v = isfinite <$> v.
Proof.
  unfold drop_infinite. rewrite <- list_fmap_compose.
  apply list_fmap_ext. intros _ a _. by destruct a.
Qed.

Lemma vget_drop_infinite v k :
  isfinite (vget v k) = true → vget (drop_infinite v) k = vget v k.
Proof.
  unfold vget, drop_infinite. rewrite list_lookup_fmap.
  destruct (v !! k) as [a|]; [|done]. cbn. by intros ->.
Qed.

Lemma mask_assign_ext b ind vals vals' :
  (∀ k, mget ind k = true → vget vals k = vget vals' k) →
  mask_assign b ind vals = mask_assign b ind vals'.
Proof.
  intros Hext. unfold mask_assign. apply imap_ext. intros k x _. cbn.
  destruct (mget ind k) eqn:E; [by apply Hext|done].
Qed.

Lemma rate_rhs_drop_infinite rate b :
  rate_rhs (drop_infinite <$> rate) b = rate_rhs rate b.
Proof.
  destruct rate as [r|]; [|done]. cbn. rewrite isfinite_drop_infinite.
  apply mask_assign_ext. intros k Hk. rewrite mget_isfinite in Hk.
  by apply vget_drop_infinite.
Qed.

Lemma value_rhs_drop_infinite value A b :
  value_rhs (drop_infinite value) A b = value_rhs value A b.
Proof.
  unfold value_rhs. cbv zeta. rewrite isfinite_drop_infinite.
  f_equal.
  - apply mask_assign_ext. intros k Hk. rewrite mget_isfinite in Hk.
    unfold vget in *. unfold drop_infinite. rewrite !list_lookup_fmap.
    destruct (value !! k) as [a|]; cbn in *; [|done]. by rewrite Hk.
  - f_equal. unfold zeros_like. rewrite !length_mask_assign.
    apply mask_assign_ext. intros k Hk. rewrite mget_isfinite in Hk.
    by apply vget_drop_infinite.
Qed.

Lemma value_matrix_drop_infinite value A :
  value_matrix (drop_infinite value) A = value_matrix value A.
Proof. unfold value_matrix. cbv zeta. by rewrite isfinite_drop_infinite. Qed.

(** C10. A pore whose entry in either condition array is infinite counts
    as carrying a condition for topology validation, which sees the same
    mask as with a finite entry there; [_apply_BCs] leaves in [A] and [b]
    what it leaves when every infinite entry is NaN.  On the chain with
    +inf at pore 0 as its only entry the validation passes, and it raises
    once that entry is NaN. *)
Theorem infinite_condition_counts_but_is_not_applied :
  (∀ rate value i,
     i < length rate → i < length value →
     vget rate i = PInf ∨ vget rate i = NInf
     ∨ vget value i = PInf ∨ vget value i = NInf →
     mget (bc_pores rate value) i = true)
  ∧ (∀ s l A b,
       _A s = Some l → heap s !! l = Some A → _b s = Some b →
       let s0 := set_props (drop_infinite <$> props s) s in
       heap (_apply_BCs s).1 = heap (_apply_BCs s0).1
       ∧ _b (_apply_BCs s).1 = _b (_apply_BCs s0).1
       ∧ (_apply_BCs s).2 = (_apply_BCs s0).2)
  ∧ _validate_topology_health chain3_inf = (chain3_inf, Ok tt)
  ∧ _validate_topology_health
      (set_props (drop_infinite <$> props chain3_inf) chain3_inf)
    = (set_props (drop_infinite <$> props chain3_inf) chain3_inf,
       Raise (Exception clustered_msg)).
Proof.
  split; [|split; [|split]].
  - intros rate value i Hr Hv Hinf. apply mget_bc_pores_2; [done|done|].
    destruct Hinf as [-> | [-> | [-> | ->]]]; auto.
  - intros s l A b HA Hh Hb s0.
    rewrite (_apply_BCs_run s l A b) by done.
    rewrite (_apply_BCs_run s0 l A b) by done.
    unfold s0. cbn [props set_props]. rewrite !lookup_fmap.
    destruct (props s !! "pore.bc.value") as [value|]; cbn.
    + rewrite value_matrix_drop_infinite, value_rhs_drop_infinite.
      by rewrite rate_rhs_drop_infinite.
    + by rewrite rate_rhs_drop_infinite.
  - by vm_compute.
  - by vm_compute.
Qed.

(** ** [run]: failed validations and the initial guess *)

Lemma all_finite_zeros_like b : all_finite (zeros_like b) = true.
Proof.
  unfold zeros_like, zeros, all_finite. apply forallb_forall.
  intros a Ha%list_elem_of_In%elem_of_replicate. by destruct Ha as [-> _].
Qed.

Lemma all_finite_false v :
  all_finite v = false ↔ ∃ k, isfinite (vget v k) = false ∧ k < length v.
Proof.
  unfold all_finite. split.
  - intros Hf. induction v as [|a v IH]; [done|]. cbn in Hf.
    apply andb_false_iff in Hf as [Ha|Hv].
    + exists 0. split; [done|cbn; lia].
    + destruct (IH Hv) as (k & Hk & Hlt). exists (S k). split; [done|cbn; lia].
  - intros (k & Hk & Hlt). apply not_true_is_false. rewrite forallb_forall.
    intros Hall. destruct (lookup_lt_is_Some_2 v k Hlt) as [a Ha].
    unfold vget in Hk. rewrite Ha in Hk. cbn in Hk.
    rewrite Hall in Hk; [done|]. apply list_elem_of_In.
    by eapply list_elem_of_lookup_2.
Qed.

(** C5, as the code has it.  A failed settings validation leaves the whole
    state as it was; a failed topology or data-health validation before the
    solve leaves the arrays of the algorithm, the quantity field among them,
    and the solution container as they were; a non-finite initial guess
    makes [run] raise with the solution container as it was, while the
    quantity field and ['pore.initial_guess'] already hold the rejected
    guess. *)
Theorem run_validation_failures diagnose default_solver solver x0 s :
  (∀ s1 e, _validate_settings s = (s1, Raise e) →
           run diagnose default_solver solver x0 s = (s, Raise e))
  ∧ (∀ s1 e, _validate_settings s = (s, Ok tt) →
             _validate_data_health diagnose s = (s1, Raise e) →
             run diagnose default_solver solver x0 s = (s1, Raise e)
             ∧ props s1 = props s ∧ soln s1 = soln s)
  ∧ (∀ s1 r v q, _validate_settings s = (s, Ok tt) →
                 _validate_data_health diagnose s = (s1, Ok r) →
                 quantity (settings s) = Some q →
                 x0 = Some v → all_finite v = false →
                 ∃ s2,
                   run diagnose default_solver solver x0 s
                   = (s2, Raise (Exception "x0 contains inf/nan values"))
                   ∧ soln s2 = soln s
                   ∧ props s2
                     = <["pore.initial_guess" := v]> (<[q := v]> (props s))).
Proof.
  split; [|split].
  - intros s1 e Hv. by eapply run_settings_fail.
  - intros s1 e Hv Hd. split; [by apply run_data_health_fail|].
    pose proof (keeps_validate_data_health diagnose _ _ _ Hd)
      as (_ & _ & _ & _ & _ & _ & Hp & Hs). done.
  - intros s1 r v q Hv Hd Hq -> Hfin.
    pose proof (keeps_validate_data_health diagnose _ _ _ Hd)
      as (_ & _ & _ & _ & _ & _ & Hp & Hs).
    eexists. split; [by eapply run_x0_fail|]. cbn. by rewrite Hp, Hs.
Qed.

(** C8. With a NaN or an infinity in [x0], [run] raises, and it does so
    whatever the solver is, which is never called; a finite [x0] passes
    [_validate_x0] once it is stored, and so does the zero vector used when
    [x0] is left out. *)
Theorem run_initial_guess diagnose default_solver solver s :
  (∀ v k, k < length v → isfinite (vget v k) = false →
     (∃ s' e, run diagnose default_solver solver (Some v) s = (s', Raise e))
     ∧ ∀ default_solver' solver',
         run diagnose default_solver' solver' (Some v) s
         = run diagnose default_solver solver (Some v) s)
  ∧ (∀ v s1 q, all_finite v = true → quantity (settings s1) = Some q →
       (x_set v;; setitem (Some "pore.initial_guess") v;; _validate_x0) s1
       = (set_props (<["pore.initial_guess" := v]> (<[q := v]> (props s1))) s1,
          Ok tt))
  ∧ (∀ b, all_finite (zeros_like b) = true).
Proof.
  split; [|split].
  - intros v k Hk Hnf.
    assert (all_finite v = false) as Hfin by (apply all_finite_false; eauto).
    destruct (_validate_settings s) as [s1 [[]|e]] eqn:Hv.
    + pose proof (_validate_settings_state _ _ _ Hv) as ->.
      destruct (_validate_settings_ok _ Hv) as (q & _ & _ & Hq & _).
      destruct (_validate_data_health diagnose s) as [s1 [r|e]] eqn:Hd.
      * split; [|intros ds' sv'];
          rewrite !(run_x0_fail diagnose _ _ s s1 r v q) by done; eauto.
      * split; [|intros ds' sv'];
          rewrite !(run_data_health_fail diagnose _ _ _ s s1 e) by done; eauto.
    + split; [|intros ds' sv'];
        rewrite !(run_settings_fail diagnose _ _ _ s s1 e) by done; eauto.
  - intros v s1 q Hfin Hq. unfold _validate_x0. run_step. rewrite Hq. run_step.
    rewrite lookup_insert_eq. run_step. by rewrite Hfin.
  - apply all_finite_zeros_like.
Qed.

(** C6, at the defaults of [TransportSettings].  With the quantity and the
    conductance left at their default, the empty string, the settings pass
    validation; [run] goes on into [_build_A] and what it raises there is
    the [KeyError] of the lookup of the conductance array. *)
Theorem run_unconfigured_passes_settings diagnose default_solver solver :
  quantity (settings chain3_unconfigured) = quantity default_settings
  ∧ conductance (settings chain3_unconfigured) = conductance default_settings
  ∧ _validate_settings chain3_unconfigured = (chain3_unconfigured, Ok tt)
  ∧ _build_A chain3_unconfigured = (chain3_unconfigured, Raise (KeyError (Some "")))
  ∧ run diagnose default_solver solver None chain3_unconfigured
    = (chain3_unconfigured, Raise (KeyError (Some ""))).
Proof.
  split; [done|]. split; [done|]. split; [done|]. split; [by vm_compute|].
  apply run_data_health_fail; [done|]. by vm_compute.
Qed.

(** A setting that is [None] does stop [run] at once, with nothing
    written. *)
Lemma run_missing_setting diagnose default_solver solver x0 s :
  quantity (settings s) = None ∨ conductance (settings s) = None
  ∨ phase (settings s) = None →
  ∃ msg, run diagnose default_solver solver x0 s = (s, Raise (Exception msg)).
Proof.
  intros Hnone.
  assert (∃ msg, _validate_settings s = (s, Raise (Exception msg))) as [msg Hv].
  { unfold _validate_settings. run_step.
    destruct (quantity (settings s)), (conductance (settings s)),
      (phase (settings s)); run_step; try (by eexists).
    destruct Hnone as [?|[?|?]]; done. }
  exists msg. by eapply run_settings_fail.
Qed.

(** * The claims on concrete algorithms *)

Ltac by_decide := apply (bool_decide_unpack _); vm_compute; exact I.

(** C2 as stated fails: for two pores joined by one throat of conductance 2
    the diagonal entry is 2, the sum itself, and not its negative. *)
Lemma build_A_diagonal_not_negated :
  ∃ s' p P,
    _build_A pair_alg = (s', Ok tt)
    ∧ _pure_A s' = Some p ∧ heap s' !! p = Some P
    ∧ coo_get P 0 0 = qz 2
    ∧ coo_get P 0 0
      ≠ Fin (- throat_sum (incident 0) (conns (network pair_alg)) [Q2Qc 2]).
Proof.
  eexists _, 0, _. split; [by vm_compute|].
  split; [done|]. split; [done|]. split; by_decide.
Qed.

(** C5 as stated fails: a run on the solved chain with a NaN in the initial
    guess raises, and the stored quantity field is the rejected guess. *)
Lemma run_rejected_guess_overwrites_field :
  ∃ s',
    run plain_diagnose echo_solver None (Some [NaN; qz 0; qz 0]) chain3_solved
    = (s', Raise (Exception "x0 contains inf/nan values"))
    ∧ props chain3_solved !! "pore.concentration" = Some [qz 10; qz 5; qz 0]
    ∧ props s' !! "pore.concentration" = Some [NaN; qz 0; qz 0]
    ∧ props s' !! "pore.concentration"
      ≠ props chain3_solved !! "pore.concentration".
Proof.
  eexists. split; [by vm_compute|].
  split; [by_decide|]. split; by_decide.
Qed.

(** C7 as stated fails: what topology validation raises does not tell the
    unreached pores; the algorithm with pore 2 cut off and the one without
    throats raise the same exception. *)
Lemma clustered_diagnostic_names_no_pores :
  ¬ ∃ named : exn → list nat,
      ∀ s e, _validate_topology_health s = (s, Raise e) →
             named e = unreached_pores s.
Proof.
  intros (named & Hnamed).
  pose proof (Hnamed cut_alg (Exception clustered_msg) ltac:(by vm_compute)) as H1.
  pose proof (Hnamed loose_alg (Exception clustered_msg) ltac:(by vm_compute)) as H2.
  rewrite H1 in H2. by vm_compute in H2.
Qed.

(** C1 on binary64 numbers: the matrix of the chain with conductance 2,
    the value 10 fixed at pore 0 and the value 0 at pore 2.  The mean
    diagonal is 8/3 rounded, [b[0]] is ten times that, rounded again, and
    the system the method leaves has an exact solution whose entry at pore 0
    is not 10. *)
Lemma apply_BCs_value_rounded :
  let A := Float64.Coo 3
             [Float64.Entry 0 1 (Float64.fz (-2));
              Float64.Entry 1 2 (Float64.fz (-2));
              Float64.Entry 1 0 (Float64.fz (-2));
              Float64.Entry 2 1 (Float64.fz (-2));
              Float64.Entry 0 0 (Float64.fz 2);
              Float64.Entry 1 1 (Float64.fz 4);
              Float64.Entry 2 2 (Float64.fz 2)] in
  let Ab := Float64._apply_BCs None
              (Some [Float64.fz 10; PrimFloat.nan; Float64.fz 0])
              A (Float64.zeros 3) in
  Float64.exact (Float64.mean (Float64.coo_diagonal A))
  = Fin (Q2Qc (6004799503160661 # 2251799813685248))
  ∧ Float64.exact <$> Ab.2
    = [Fin (Q2Qc (60047995031606608 # 2251799813685248)); qz 20; qz 0]
  ∧ ∃ x : list Qc,
      coo_matvec (exact_coo Ab.1) (Fin <$> x) = Float64.exact <$> Ab.2
      ∧ x !! 0 ≠ Some (Q2Qc 10).
Proof.
  split; [by_decide|]. split; [by_decide|].
  exists [Q2Qc (60047995031606608 # 6004799503160661); Q2Qc 5; Q2Qc 0].
  split; by_decide.
Qed.


(** C4 with an infinite conductance: every value entry is NaN and pore 1
    holds the rate 7, yet [b] ends as NaN at pore 1 and at pore 0, because
    line 156 subtracts [inf * 0] there. *)
Lemma apply_BCs_rate_only_infinite_conductance :
  ∃ s' b',
    _apply_BCs chain3_inf_conductance = (s', Ok tt) ∧ _b s' = Some b'
    ∧ props chain3_inf_conductance !! "pore.bc.value" = Some [NaN; NaN; NaN]
    ∧ props chain3_inf_conductance !! "pore.bc.rate" = Some [NaN; qz 7; NaN]
    ∧ vget b' 1 = NaN ∧ vget b' 0 = NaN.
Proof.
  eexists _, _. split; [by vm_compute|]. split; [done|]. split; [by vm_compute|].
  split; [by vm_compute|]. split; by vm_compute.
Qed.

(** Where nothing is rounded the two models agree: the binary64 assembly
    of the chain with conductance 2 stores the numbers of the exact one. *)
Example float64_pure_matrix_chain3 :
  exact_coo (Float64.pure_matrix chain3 [Float64.fz 2; Float64.fz 2])
  = pure_matrix chain3 [qz 2; qz 2].
Proof. by_decide. Qed.

(** The chain of the specification: the value 10 fixed at pore 0. *)
Lemma apply_BCs_value_pore_chain3 :
  ∃ s' A' b',
    _apply_BCs chain3_built = (s', Ok tt)
    ∧ heap s' !! 1 = Some A' ∧ _b s' = Some b'
    ∧ coo_get A' 0 0 = Fin (Q2Qc (8 # 3))
    ∧ vget b' 0 = nmul (Fin (Q2Qc 10)) (Fin (Q2Qc (8 # 3)))
    ∧ ∀ x : vec, vget (coo_matvec A' x) 0 = nmul (Fin (Q2Qc (8 # 3))) (vget x 0).
Proof.
  destruct (apply_BCs_value_pore chain3_built 1
              (pure_matrix chain3 [qz 2; qz 2]) (zeros 3)
              [qz 10; NaN; qz 0] 0 (Q2Qc 10) (Q2Qc (8 # 3)))
    as (s' & A' & b' & Hrun & _ & HA & Hb & _ & Hd & Hb0 & _ & _ & Hx).
  - by vm_compute.
  - by vm_compute.
  - by vm_compute.
  - by vm_compute.
  - reflexivity.
  - reflexivity.
  - reflexivity.
  - by_decide.
  - by vm_compute.
  - by exists s', A', b'.
Defined.

Lemma build_A_laplacian_entries_chain3 :
  ∃ s' p P,
    _build_A chain3_alg = (s', Ok tt) ∧ heap s' !! p = Some P
    ∧ coo_get P 1 1
      = Fin (throat_sum (incident 1) (conns chain3) [Q2Qc 2; Q2Qc 2])
    ∧ coo_get P 0 1 = Fin (- Q2Qc 2).
Proof.
  destruct (build_A_laplacian_entries chain3_alg [Q2Qc 2; Q2Qc 2])
    as (s' & p & P & Hrun & _ & HP & Hd & _ & Hone).
  - by vm_compute.
  - reflexivity.
  - intros p Hp. by vm_compute in Hp.
  - exists s', p, P. split; [done|]. split; [done|]. split.
    + apply Hd. cbn. lia.
    + apply (Hone 0 1 0 (0, 1) (Q2Qc 2)); try done.
      intros [|[|t']] c' Hne Hc'; try done. by injection Hc' as <-.
Defined.


Lemma apply_BCs_rate_only_chain3 :
  ∃ s' A' b',
    _apply_BCs chain3_rate = (s', Ok tt)
    ∧ heap s' !! 1 = Some A' ∧ _b s' = Some b'
    ∧ coo_get A' 1 1 = coo_get (pure_matrix chain3 [qz 2; qz 2]) 1 1
    ∧ vget b' 1 = qz 7 ∧ vget b' 2 = Fin 0.
Proof.
  destruct (apply_BCs_rate_only chain3_rate 1
              (pure_matrix chain3 [qz 2; qz 2]) [NaN; NaN; NaN])
    as (s' & A' & b' & Hrun & _ & HA & Hb & Hsame & _ & Hrate).
  - by vm_compute.
  - by vm_compute.
  - by vm_compute.
  - by vm_compute.
  - reflexivity.
  - by repeat constructor.
  - by vm_compute.
  - unfold coo_wf. by_decide.
  - exists s', A', b'. split; [done|]. split; [done|]. split; [done|]. split.
    + apply Hsame. cbn. lia.
    + split; [apply (Hrate 1)|apply (Hrate 2)]; cbn; lia.
Defined.

Lemma run_validation_failures_chain3 :
  ∃ s2,
    run plain_diagnose echo_solver None (Some [NaN; qz 0; qz 0]) chain3_solved
    = (s2, Raise (Exception "x0 contains inf/nan values"))
    ∧ soln s2 = soln chain3_solved
    ∧ props s2
      = <["pore.initial_guess" := [NaN; qz 0; qz 0]]>
          (<["pore.concentration" := [NaN; qz 0; qz 0]]> (props chain3_solved)).
Proof.
  destruct (run_validation_failures plain_diagnose echo_solver None
              (Some [NaN; qz 0; qz 0]) chain3_solved) as (_ & _ & Hx0).
  apply (Hx0 (_validate_data_health plain_diagnose chain3_solved).1 true).
  - reflexivity.
  - by vm_compute.
  - reflexivity.
  - reflexivity.
  - reflexivity.
Defined.

Lemma linked_cut_alone q : linked [(0, 1)] 2 q → q = 2.
Proof.
  intros Hl. remember 2 as p0 eqn:Hp0.
  induction Hl as [p|p q r _ IH Hedge]; [done|].
  specialize (IH Hp0). subst.
  destruct Hedge as [Hedge|Hedge]; apply list_elem_of_singleton in Hedge;
    by injection Hedge.
Qed.

Lemma validate_topology_health_clustered_cut :
  _validate_topology_health cut_alg = (cut_alg, Raise (Exception clustered_msg)).
Proof.
  apply (validate_topology_health_clustered cut_alg
           [NaN; NaN; NaN] [qz 1; NaN; NaN] 2).
  - by vm_compute.
  - by vm_compute.
  - cbn. lia.
  - intros q ->%linked_cut_alone. by vm_compute.
Defined.

Lemma run_initial_guess_chain3 :
  (∃ s' e,
     run plain_diagnose echo_solver None (Some [NaN; qz 0; qz 0]) chain3_solved
     = (s', Raise e))
  ∧ run plain_diagnose echo_solver (Some (λ _ b _, (b, 1%Z)))
      (Some [NaN; qz 0; qz 0]) chain3_solved
    = run plain_diagnose echo_solver None (Some [NaN; qz 0; qz 0]) chain3_solved.
Proof.
  destruct (run_initial_guess plain_diagnose echo_solver None chain3_solved)
    as (Hbad & _ & _).
  destruct (Hbad [NaN; qz 0; qz 0] 0) as [Hraise Hany].
  - cbn. lia.
  - reflexivity.
  - split; [done|]. apply Hany.
Defined.

Lemma cached_pure_matrix_intact_chain3 :
  ∃ s' p,
    repeat_call 2 _update_A_and_b chain3_alg = (s', Ok tt)
    ∧ _pure_A s' = Some p
    ∧ heap s' !! p = Some (pure_matrix chain3 [qz 2; qz 2]).
Proof.
  destruct (cached_pure_matrix_intact chain3_alg [qz 2; qz 2] 2)
    as (_ & s' & Hrun & _ & _ & Hsome & _).
  - by vm_compute.
  - reflexivity.
  - intros p Hp. by vm_compute in Hp.
  - destruct Hsome as (p & Hp & Hh); [lia|]. by exists s', p.
Defined.

Lemma infinite_condition_chain3 :
  mget (bc_pores [NaN; NaN; NaN] [PInf; NaN; NaN]) 0 = true.
Proof.
  destruct infinite_condition_counts_but_is_not_applied as (Hcount & _).
  apply Hcount; cbn; [lia|lia|tauto].
Defined.

(** The scenario of the specification end to end: the conditions pass
    topology validation, and [A * x = b] for the assembled system and
    [x = (10, 5, 0)]. *)
Example chain3_solution :
  ∃ s' l A' b',
    _update_A_and_b chain3_alg = (s', Ok tt)
    ∧ _A s' = Some l ∧ heap s' !! l = Some A' ∧ _b s' = Some b'
    ∧ coo_matvec A' [qz 10; qz 5; qz 0] = b'
    ∧ _validate_topology_health chain3_alg = (chain3_alg, Ok tt).
Proof.
  eexists _, 1, _, _. split; [by vm_compute|].
  split; [done|]. split; [done|]. split; [done|]. split; [by_decide|].
  by vm_compute.
Qed.

(** * Further properties of the code *)

(** ** Indexing *)

Lemma index_int_nat {A} (v : list A) k a :
  v !! k = Some a → index_int v (Z.of_nat k) = Returns a.
Proof.
  intros Hk. pose proof (lookup_lt_Some _ _ _ Hk) as Hlt.
  unfold index_int. cbv zeta.
  rewrite (bool_decide_eq_false_2 (Z.of_nat k < 0)%Z) by lia.
  rewrite bool_decide_eq_true_2 by lia. by rewrite Nat2Z.id, Hk.
Qed.

Lemma index_int_negative {A} (v : list A) k a :
  0 < k ≤ length v → v !! (length v - k) = Some a →
  index_int v (- Z.of_nat k) = Returns a.
Proof.
  intros Hpos Hk. pose proof (lookup_lt_Some _ _ _ Hk) as Hlt.
  unfold index_int. cbv zeta.
  rewrite (bool_decide_eq_true_2 (- Z.of_nat k < 0)%Z) by lia.
  rewrite bool_decide_eq_true_2 by lia.
  replace (Z.to_nat (Z.of_nat (length v) + - Z.of_nat k)) with (length v - k)
    by lia.
  by rewrite Hk.
Qed.

Lemma index_int_out_of_range {A} (v : list A) z :
  (z < - Z.of_nat (length v) ∨ Z.of_nat (length v) ≤ z)%Z →
  index_int v z = Fails IndexError.
Proof.
  intros Hz. unfold index_int. cbv zeta.
  destruct (bool_decide (z < 0)%Z) eqn:E.
  - apply bool_decide_eq_true in E. rewrite bool_decide_eq_false_2 by lia. done.
  - apply bool_decide_eq_false in E. rewrite bool_decide_eq_false_2 by lia. done.
Qed.

Lemma take_pairs_fin (x : list Qc) cs :
  Forall (λ c : nat * nat, c.1 < length x ∧ c.2 < length x) cs →
  take_pairs (Fin <$> x) cs
  = Returns ((λ c, (Fin (qget x c.1), Fin (qget x c.2))) <$> cs).
Proof.
  induction 1 as [|c cs [H1 H2] _ IH]; [done|].
  destruct (lookup_lt_is_Some_2 x _ H1) as [a Ha].
  destruct (lookup_lt_is_Some_2 x _ H2) as [b Hb].
  cbn [take_pairs].
  rewrite (index_int_nat _ c.1 (Fin a)) by (by rewrite list_lookup_fmap, Ha).
  rewrite (index_int_nat _ c.2 (Fin b)) by (by rewrite list_lookup_fmap, Hb).
  cbn. rewrite IH. cbn. unfold qget. by rewrite Ha, Hb.
Qed.

Lemma throat_flows_fin (x g : list Qc) cs :
  throat_flows (Fin <$> g)
    ((λ c, (Fin (qget x c.1), Fin (qget x c.2))) <$> cs)
  = (λ t, Fin (flow x t)) <$> zip cs g.
Proof.
  unfold throat_flows. revert g.
  induction cs as [|c cs IH]; intros [|w g]; try done.
  cbn. by rewrite <- IH.
Qed.

(** ** [rate] on a finite field *)

Section Rate.

Variables (s : Transport) (g x : list Qc) (q : string).
Hypothesis Hg : conductance_array s = Some (Fin <$> g).
Hypothesis Hq : quantity (settings s) = Some q.
Hypothesis Hx : props s !! q = Some (Fin <$> x).
Hypothesis Hlx : length x = Np (network s).
Hypothesis Hwf : network_wf (network s).

Lemma rate_lookups :
  ∃ ph, phase (settings s) ≫= (project s !!.) = Some ph
        ∧ conductance (settings s) ≫= (ph !!.) = Some (Fin <$> g).
Proof.
  unfold conductance_array in Hg.
  destruct (phase (settings s) ≫= (project s !!.)) as [ph|]; [|done].
  by exists ph.
Qed.

Lemma rate_take_pairs :
  take_pairs (Fin <$> x) (conns (network s))
  = Returns ((λ c, (Fin (qget x c.1), Fin (qget x c.2))) <$> conns (network s)).
Proof. apply take_pairs_fin. by rewrite Hlx. Qed.

End Rate.

Section RateTheorems.

Variables (s : Transport) (g x : list Qc) (q : string).
Hypothesis Hg : conductance_array s = Some (Fin <$> g).
Hypothesis Hlen : length g = Nt (network s).
Hypothesis Hq : quantity (settings s) = Some q.
Hypothesis Hx : props s !! q = Some (Fin <$> x).
Hypothesis Hlx : length x = Np (network s).
Hypothesis Hwf : network_wf (network s).

Lemma rate_throats_run throats ts mode :
  _parse_indices (network s) throats = Returns ts → 0 < length ts →
  rate (LocInts []) throats mode s
  = if bool_decide (Nt (network s) = 1) then Fails IndexError
    else R ← take_at ((λ t, Fin (flow x t)) <$> zip (conns (network s)) g) ts;
         Returns (by_mode mode (nabs <$> R)).
Proof.
  intros Hts Hpos. destruct (rate_lookups s g Hg) as (ph & Hph & Hgl).
  unfold rate. rewrite Hts. cbn.
  rewrite (bool_decide_eq_false_2 (0 < 0)) by lia. rewrite andb_false_r.
  rewrite (bool_decide_eq_false_2 (length ts = 0)) by lia. cbn.
  rewrite Hph, Hgl, Hq. cbn. rewrite Hx, (rate_take_pairs s x Hlx Hwf). cbn.
  rewrite length_fmap, bool_decide_eq_true_2 by done.
  rewrite (bool_decide_eq_true_2 (0 < length ts)) by done.
  by rewrite throat_flows_fin.
Qed.

(** On a network with a single throat a rate through throats cannot be
    had: the squeezed flow is a scalar and indexing it raises. *)
Theorem rate_throats_single_throat_network ts mode :
  Nt (network s) = 1 → ts ≠ [] →
  rate (LocInts []) (LocInts ts) mode s = Fails IndexError.
Proof.
  intros Hnt Hts. rewrite (rate_throats_run _ ts); [|done|].
  - by rewrite bool_decide_eq_true_2.
  - destruct ts; [done|cbn; lia].
Qed.

End RateTheorems.

Lemma take_pairs_get (x : vec) cs :
  Forall (λ c : nat * nat, c.1 < length x ∧ c.2 < length x) cs →
  take_pairs x cs = Returns ((λ c, (vget x c.1, vget x c.2)) <$> cs).
Proof.
  induction 1 as [|c cs [H1 H2] _ IH]; [done|].
  destruct (lookup_lt_is_Some_2 x _ H1) as [a Ha].
  destruct (lookup_lt_is_Some_2 x _ H2) as [b Hb].
  cbn [take_pairs].
  rewrite (index_int_nat _ c.1 a), (index_int_nat _ c.2 b) by done.
  cbn. rewrite IH. cbn. unfold vget. by rewrite Ha, Hb.
Qed.

Lemma nabs_nsub_swap a c : nabs (nsub a c) = nabs (nsub c a).
Proof.
  destruct a as [p| | |], c as [r| | |]; try done. cbn. f_equal.
  rewrite <- (Qcabs_opp (p + - r)). f_equal. ring.
Qed.

(** The rate through one throat is the absolute value of
    [g * x[q] - g * x[p]] for its end pores [(p, q)], for every conductance
    and field, finite or not; the order of the two ends does not matter. *)
Theorem rate_throat_is_flow_size s ph (g x : vec) t c :
  phase (settings s) ≫= (project s !!.) = Some ph →
  conductance (settings s) ≫= (ph !!.) = Some g →
  quantity (settings s) ≫= (props s !!.) = Some x →
  length g = Nt (network s) → Nt (network s) ≠ 1 →
  Forall (λ c : nat * nat, c.1 < length x ∧ c.2 < length x) (conns (network s)) →
  conns (network s) !! t = Some c →
  rate (LocInts []) (LocInts [Z.of_nat t]) "single" s
  = Returns [nabs (nsub (nmul (vget g t) (vget x c.2))
                        (nmul (vget g t) (vget x c.1)))]
  ∧ nabs (nsub (nmul (vget g t) (vget x c.2)) (nmul (vget g t) (vget x c.1)))
    = nabs (nsub (nmul (vget g t) (vget x c.1)) (nmul (vget g t) (vget x c.2))).
Proof.
  intros Hph Hg Hx Hlen Hnt Hin Hc. split; [|apply nabs_nsub_swap].
  assert (t < length g) as Ht.
  { rewrite Hlen. unfold Nt. by eapply lookup_lt_Some. }
  destruct (lookup_lt_is_Some_2 g t Ht) as [w Hw].
  unfold rate. cbn. rewrite Hph, Hg, Hx, (take_pairs_get x _ Hin). cbn.
  rewrite (bool_decide_eq_false_2 (0 < 0)) by lia. rewrite andb_false_r.
  rewrite (bool_decide_eq_false_2 (1 = 0)) by lia. cbn [andb].
  rewrite (bool_decide_eq_true_2 (length g = _)) by done.
  rewrite (bool_decide_eq_true_2 (0 < 1)) by lia.
  rewrite (bool_decide_eq_false_2 (Nt _ = 1)) by done.
  rewrite (index_int_nat _ t
             (nsub (nmul w (vget x c.2)) (nmul w (vget x c.1)))).
  - cbn. unfold by_mode. rewrite bool_decide_eq_false_2 by done.
    by replace (vget g t) with w by (unfold vget; by rewrite Hw).
  - unfold throat_flows. rewrite lookup_zip_with, Hw. cbn.
    by rewrite list_lookup_fmap, Hc.
Qed.

(** Pores and throats together, or neither, are refused before anything is
    looked up. *)
Theorem rate_needs_pores_or_throats s pores throats ps ts mode :
  _parse_indices (network s) pores = Returns ps →
  _parse_indices (network s) throats = Returns ts →
  (ps ≠ [] → ts ≠ [] →
   rate pores throats mode s
   = Fails (PyExn (Exception "Must specify either pores or throats, not both")))
  ∧ (ps = [] → ts = [] →
     rate pores throats mode s
     = Fails (PyExn (Exception "Must specify either pores or throats"))).
Proof.
  intros Hps Hts. unfold rate. rewrite Hps, Hts. cbn. split.
  - intros Hp Ht. destruct ps, ts; try done.
  - intros -> ->. done.
Qed.

(** ** [_parse_indices] on masks *)

(** A mask as long as the pores or as the throats is turned into the
    positions at which it is set, in range and without repeats; a mask of
    any other length is refused. *)
Theorem parse_indices_mask net m :
  (length m = Np net ∨ length m = Nt net →
   ∃ l, _parse_indices net (LocMask m) = Returns l
        ∧ (∀ k, Z.of_nat k ∈ l ↔ m !! k = Some true)
        ∧ (∀ z, z ∈ l → (0 ≤ z < Z.of_nat (length m))%Z)
        ∧ NoDup l)
  ∧ (length m ≠ Np net → length m ≠ Nt net →
     _parse_indices net (LocMask m)
     = Fails (PyExn (Exception "Mask of locations must be either Np nor Nt long"))).
Proof.
  split.
  - intros Hlen. exists (mask_indices m). split; [|split; [|split]].
    + unfold _parse_indices. destruct Hlen as [Hl|Hl].
      * by rewrite bool_decide_eq_true_2.
      * case_bool_decide; [done|]. by rewrite bool_decide_eq_true_2.
    + intros k. unfold mask_indices. rewrite list_elem_of_fmap. split.
      * intros (k' & Hk & Hin). apply Nat2Z.inj in Hk as <-.
        apply elem_of_to_indices in Hin. unfold mget in Hin.
        by destruct (m !! k) as [[]|].
      * intros Hk. exists k. split; [done|]. apply elem_of_to_indices.
        unfold mget. by rewrite Hk.
    + intros z. unfold mask_indices. rewrite list_elem_of_fmap.
      intros (k & -> & Hin). apply elem_of_to_indices, mget_true_lt in Hin. lia.
    + unfold mask_indices. apply NoDup_fmap; [apply Nat2Z.inj'|].
      apply NoDup_to_indices.
  - intros H1 H2. unfold _parse_indices.
    by rewrite !bool_decide_eq_false_2.
Qed.

(** ** More on [_apply_BCs] *)

(** A symmetric matrix stays symmetric. *)
Theorem apply_BCs_keeps_symmetry s l A b :
  _A s = Some l → heap s !! l = Some A → _b s = Some b →
  (∀ i j, coo_get A i j = coo_get A j i) →
  ∃ s' A',
    _apply_BCs s = (s', Ok tt) ∧ _A s' = Some l ∧ heap s' !! l = Some A'
    ∧ ∀ i j, coo_get A' i j = coo_get A' j i.
Proof.
  intros HA Hh Hb Hsym.
  assert (l < length (heap s)) as Hlt by (by eapply lookup_lt_Some).
  rewrite (_apply_BCs_run s l A b) by done.
  destruct (props s !! "pore.bc.value") as [value|].
  - eexists _, (value_matrix value A). split; [done|]. split; [done|].
    split; [cbn; by apply list_lookup_insert_eq|].
    intros i j. destruct (decide (i = j)) as [->|Hij]; [done|].
    destruct (mget (isfinite <$> value) i || mget (isfinite <$> value) j) eqn:E.
    + rewrite !value_matrix_off; try done. by rewrite orb_comm.
    + rewrite !value_matrix_off_free; try done. by rewrite orb_comm.
  - eexists _, A. by repeat split.
Qed.

(** Between pores without a value condition nothing changes, the matrix
    keeps its shape and [b] its length, and no zero is left among the stored
    values. *)
Theorem apply_BCs_free_block s l A b value :
  _A s = Some l → heap s !! l = Some A → _b s = Some b →
  props s !! "pore.bc.value" = Some value →
  ∃ s' A' b',
    _apply_BCs s = (s', Ok tt) ∧ _A s' = Some l ∧ heap s' !! l = Some A'
    ∧ _b s' = Some b'
    ∧ (∀ i j, i < shape A →
         isfinite (vget value i) = false → isfinite (vget value j) = false →
         coo_get A' i j = coo_get A i j)
    ∧ shape A' = shape A ∧ length b' = length b
    ∧ Forall (λ e, nonzero (data e) = true) (entries A').
Proof.
  intros HA Hh Hb Hv.
  assert (l < length (heap s)) as Hlt by (by eapply lookup_lt_Some).
  rewrite (_apply_BCs_run s l A b), Hv by done.
  eexists _, (value_matrix value A), _. split; [done|]. split; [done|].
  split; [cbn; by apply list_lookup_insert_eq|]. split; [done|].
  split; [|split; [done|split]].
  - intros i j Hi Hfi Hfj. destruct (decide (i = j)) as [<-|Hij].
    + by rewrite value_matrix_diag, mget_isfinite, Hfi.
    + apply value_matrix_off_free; [done|]. by rewrite !mget_isfinite, Hfi, Hfj.
  - unfold value_rhs, mask_sub_not. rewrite length_imap, length_mask_assign.
    unfold rate_rhs. destruct (props s !! "pore.bc.rate"); [|done].
    by rewrite length_mask_assign.
  - unfold value_matrix, coo_eliminate_zeros. cbn [entries].
    apply Forall_forall. by intros e [He _]%list_elem_of_filter.
Qed.

(** ** One assembly after another *)

Lemma _update_A_and_b_result s g :
  conductance_array s = Some g →
  length g = length (conns (network s)) →
  pure_A_ok s g →
  ∃ s' l,
    _update_A_and_b s = (s', Ok tt)
    ∧ same_inputs s s'
    ∧ pure_A_ok s' g
    ∧ _A s' = Some l
    ∧ heap s' !! l
      = Some (assembled_A (props s !! "pore.bc.value")
                (pure_matrix (network s) g))
    ∧ _b s'
      = Some (assembled_b (props s !! "pore.bc.rate")
                (props s !! "pore.bc.value")
                (pure_matrix (network s) g) (Np (network s))).
Proof.
  intros Hg Hlen Hok. unfold _update_A_and_b.
  pose proof (_build_A_run s g Hg Hlen) as HA. cbv zeta in HA.
  destruct s as [[ph q c ca] net prj ips pr h a b0 pa pb so].
  unfold pure_A_ok in *. cbn in *.
  destruct (key_in c ips) eqn:Ek; cbn in HA;
    [|destruct ca; [destruct pa as [p0|]|]].
  all: erewrite (bind_ok _build_A) by exact HA.
  all: erewrite (bind_ok _build_b) by apply _build_b_run.
  all: cbn [network set_A set_heap set_pure_A set_b set_pure_b set_cache].
  2:{ pose proof (Hok p0 eq_refl) as Hp0. rewrite Hp0 in *. cbn [default].
      assert (p0 < length h) as Hlt by (by eapply lookup_lt_Some).
      erewrite _apply_BCs_run; [|done|by apply list_lookup_middle|done].
      cbn. unfold assembled_A, assembled_b.
      destruct (pr !! "pore.bc.value"); cbn;
        eexists _, (length h); (split; [done|]);
        (split; [by repeat split|]); cbn.
      - split.
        + intros p [= <-]. rewrite list_lookup_insert_ne by lia.
          by rewrite lookup_app_l.
        + split; [done|]. split; [|done].
          apply list_lookup_insert_eq. rewrite length_app. cbn. lia.
      - split.
        + intros p [= <-]. by rewrite lookup_app_l.
        + split; [done|]. split; [|done]. by apply list_lookup_middle. }
  all: erewrite _apply_BCs_run; [|done|by apply lookup_new_second|done].
  all: cbn; unfold assembled_A, assembled_b.
  all: destruct (pr !! "pore.bc.value"); cbn;
    eexists _, (S (length h)); (split; [done|]);
    (split; [by repeat split|]); cbn.
  all: split;
    [intros p [= <-]; rewrite ?list_lookup_insert_ne by lia;
     by apply (list_lookup_middle h [_] _ (length h))|].
  all: split; [done|]; split; [|done].
  all: first [ apply list_lookup_insert_eq; rewrite length_app; cbn; lia
             | apply lookup_new_second ].
Qed.

(** A second assembly leaves in [A] and [b] what the first one left: the
    conditions are applied to the pure matrix and to a zero vector each
    time, never on top of an earlier result. *)
Theorem update_A_and_b_twice s g :
  conductance_array s = Some g →
  length g = length (conns (network s)) →
  pure_A_ok s g →
  ∃ s1 l1 s2 l2 A' b',
    _update_A_and_b s = (s1, Ok tt)
    ∧ _update_A_and_b s1 = (s2, Ok tt)
    ∧ _A s1 = Some l1 ∧ heap s1 !! l1 = Some A' ∧ _b s1 = Some b'
    ∧ _A s2 = Some l2 ∧ heap s2 !! l2 = Some A' ∧ _b s2 = Some b'.
Proof.
  intros Hg Hlen Hok.
  destruct (_update_A_and_b_result s g Hg Hlen Hok)
    as (s1 & l1 & Hrun1 & Hsame & Hok1 & HA1 & Hh1 & Hb1).
  pose proof Hsame as (_ & _ & _ & Hnet & _ & _ & Hprops & _).
  destruct (_update_A_and_b_result s1 g) as (s2 & l2 & Hrun2 & _ & _ & HA2 & Hh2 & Hb2).
  { by rewrite (same_inputs_conductance_array s s1). }
  { by rewrite Hnet. }
  { done. }
  rewrite Hprops, Hnet in Hh2, Hb2.
  by eexists s1, l1, s2, l2, _, _.
Qed.

(** With caching on and a matrix in the cache, [_build_A] copies the cached
    matrix and reads no conductance: the phase has to be in the project, as
    [iterative_props] looks it up, but the conductance array may be missing
    from it or changed since the matrix was made. *)
Theorem build_A_uses_cache s ph p P :
  phase (settings s) ≫= (project s !!.) = Some ph →
  key_in (conductance (settings s)) (iterative_props s) = false →
  cache (settings s) = true →
  _pure_A s = Some p → heap s !! p = Some P →
  ∃ s' l,
    _build_A s = (s', Ok tt)
    ∧ _A s' = Some l ∧ l ≠ p ∧ heap s' !! l = Some P
    ∧ _pure_A s' = Some p ∧ heap s' !! p = Some P
    ∧ same_inputs s s'.
Proof.
  destruct s as [[ph0 q c ca] net prj ips pr h a b0 pa pb so]. cbn.
  intros _ Hk -> -> Hp.
  assert (p < length h) as Hlt by (by eapply lookup_lt_Some).
  unfold _build_A. run_step. rewrite Hk. run_step. rewrite Hp. run_step.
  eexists _, (length h). split; [done|]. cbn.
  split; [done|]. split; [lia|]. split; [by apply list_lookup_middle|].
  split; [done|]. split; [by rewrite lookup_app_l|]. by repeat split.
Qed.

(** ** What a passed validation and a finished run guarantee *)

Lemma bind_inv {A B} (c : M A) (k : A → M B) s s' b :
  (c ≫= k) s = (s', Ok b) → ∃ s1 a, c s = (s1, Ok a) ∧ k a s1 = (s', Ok b).
Proof.
  unfold mbind, M_bind. destruct (c s) as [s1 [a|e]]; [|done]. eauto.
Qed.

Lemma modify_inv f s s1 a : modify f s = (s1, Ok a) → s1 = f s.
Proof. by intros [= <- _]. Qed.

Lemma dict_get_inv {V} (d : gmap string V) key s s1 v :
  dict_get d key s = (s1, Ok v) → s1 = s ∧ ∃ k, key = Some k ∧ d !! k = Some v.
Proof.
  unfold dict_get. destruct key as [k|]; cbn; [|done].
  destruct (d !! k) as [v'|] eqn:E; [|done]. intros [= <- <-]. eauto.
Qed.

Lemma getitem_inv key s s1 v :
  getitem key s = (s1, Ok v) → s1 = s ∧ ∃ k, key = Some k ∧ props s !! k = Some v.
Proof. unfold getitem. run_step. apply dict_get_inv. Qed.

Lemma x_get_inv s s1 x :
  x_get s = (s1, Ok x) →
  s1 = s ∧ ∃ q, quantity (settings s) = Some q ∧ props s !! q = Some x.
Proof. unfold x_get. run_step. apply dict_get_inv. Qed.

Lemma x_set_inv v s s1 a :
  x_set v s = (s1, Ok a) →
  ∃ q, quantity (settings s) = Some q ∧ s1 = set_props (<[q := v]> (props s)) s.
Proof.
  unfold x_set. run_step. destruct (quantity (settings s)) as [q|]; [|done].
  intros [= <- _]. eauto.
Qed.

Lemma _validate_x0_inv s s1 a :
  _validate_x0 s = (s1, Ok a) →
  s1 = s ∧ ∃ x0, props s !! "pore.initial_guess" = Some x0 ∧ all_finite x0 = true.
Proof.
  unfold _validate_x0. intros (s2 & x0 & Hget & Hrest)%bind_inv.
  apply getitem_inv in Hget as [-> (k & [= <-] & Hk)].
  destruct (all_finite x0) eqn:E; [|done]. injection Hrest as <-. eauto.
Qed.

Lemma quantity_key_inv s s1 q :
  quantity_key s = (s1, Ok q) → s1 = s ∧ quantity (settings s) = Some q.
Proof.
  unfold quantity_key. run_step. destruct (quantity (settings s)); [|done].
  by intros [= <- <-].
Qed.

Lemma soln_get_inv s s1 c : soln_get s = (s1, Ok c) → s1 = s ∧ soln s = Some c.
Proof.
  unfold soln_get. run_step. destruct (soln s); [|done]. by intros [= <- <-].
Qed.

Lemma _validate_topology_health_state s s1 r :
  _validate_topology_health s = (s1, r) → s1 = s.
Proof.
  unfold _validate_topology_health. run_step.
  destruct (props s !! "pore.bc.rate"); run_step; [|by intros [= <- _]].
  destruct (props s !! "pore.bc.value"); run_step; [|by intros [= <- _]].
  destruct (is_fully_connected _ _); by intros [= <- _].
Qed.

Lemma A_get_inv s s1 l : A_get s = (s1, Ok l) → _A s1 = Some l.
Proof.
  unfold A_get. intros Hrun.
  apply bind_inv in Hrun as (s2 & sa & _ & Hrun).
  apply bind_inv in Hrun as (s3 & [] & _ & Hrun).
  apply bind_inv in Hrun as (s4 & s5 & Hget & Hrun).
  injection Hget as <- <-.
  destruct (_A s3) as [l'|] eqn:E; [|done]. by injection Hrun as <- <-.
Qed.

Lemma b_get_inv s s1 b :
  b_get s = (s1, Ok b) → _b s1 = Some b ∧ _A s1 = _A s ∧ heap s1 = heap s.
Proof.
  unfold b_get, _build_b. run_step. destruct (_b s) eqn:E; run_step.
  - rewrite E. by intros [= <- <-].
  - by intros [= <- <-].
Qed.

Lemma load_inv l s s1 m :
  load l s = (s1, Ok m) → s1 = s ∧ m = default (Coo 0 []) (heap s !! l).
Proof. unfold load. run_step. by intros [= <- <-]. Qed.

(** A passed data-health check returns [True], has written nothing but the
    lazily built [A] and [b], and guarantees that the stored values of [A]
    and the entries of [b] are finite. *)
Theorem validate_data_health_passed diagnose s s' r :
  _validate_data_health diagnose s = (s', Ok r) →
  r = true
  ∧ same_inputs s s'
  ∧ ∃ l b,
      _A s' = Some l ∧ _b s' = Some b
      ∧ all_finite (data <$> entries (default (Coo 0 []) (heap s' !! l))) = true
      ∧ all_finite b = true.
Proof.
  intros Hrun. split; [|split; [by eapply keeps_validate_data_health|]].
  all: unfold _validate_data_health in Hrun.
  all: apply bind_inv in Hrun as (s1 & [] & _ & Hrun).
  all: apply bind_inv in Hrun as (s2 & l & HA & Hrun).
  all: apply bind_inv in Hrun as (s3 & m & [-> ->]%load_inv & Hrun).
  all: destruct (all_finite (data <$> entries _)) eqn:Efin;
    [|apply bind_inv in Hrun as (? & ? & _ & ?); done].
  all: apply bind_inv in Hrun as (s4 & b & Hb & Hrun).
  all: destruct (all_finite b) eqn:Eb;
    [|apply bind_inv in Hrun as (? & ? & _ & ?); done].
  all: injection Hrun as <- <-.
  - done.
  - apply A_get_inv in HA. apply b_get_inv in Hb as (Hb & HA' & Hh).
    exists l, b. rewrite HA', Hh. done.
Qed.

Lemma keeps_apply_BCs : keeps_inputs _apply_BCs.
Proof.
  unfold _apply_BCs, b_update, A_update, load, store.
  keeps; first [apply keeps_A_get | apply keeps_b_get].
Qed.

Lemma keeps_update_A_and_b : keeps_inputs _update_A_and_b.
Proof.
  unfold _update_A_and_b.
  keeps; first [apply keeps_build_A | apply keeps_build_b | apply keeps_apply_BCs].
Qed.

Lemma same_inputs_fields s s' :
  same_inputs s s' →
  quantity (settings s') = quantity (settings s)
  ∧ props s' = props s ∧ soln s' = soln s.
Proof. intros (_ & ? & _ & _ & _ & _ & ? & ?). done. Qed.

Lemma relax_full (x_new x : vec) :
  all_finite x = true → length x_new = length x →
  relax (Fin 1) x_new x = x_new.
Proof.
  unfold relax. revert x. induction x_new as [|a x_new IH]; intros [|c x]; try done.
  cbn [all_finite forallb length zip_with].
  intros [Hc Hx]%andb_true_iff [= Hlen]. f_equal; [|by apply IH].
  destruct (isfinite_Fin _ Hc) as [r ->]. rewrite nmul_1_l.
  replace (nmul (nsub (Fin 1) (Fin 1)) (Fin r)) with (Fin 0);
    [apply nadd_0_r|]. cbn. f_equal. ring.
Qed.

Lemma _run_special_inv diagnose solver x0 w s s' :
  _run_special diagnose solver x0 w s = (s', Ok tt) →
  ∃ q x m b c0,
    quantity (settings s) = Some q ∧ props s !! q = Some x
    ∧ soln s = Some c0
    ∧ quantity (settings s') = Some q
    ∧ props s' = <[q := relax w (solver m b x0).1 x]> (props s)
    ∧ soln s'
      = Some {| solutions := <[q := relax w (solver m b x0).1 x]> (solutions c0);
                is_converged := bool_decide ((solver m b x0).2 = 0%Z) |}.
Proof.
  unfold _run_special. intros Hrun.
  apply bind_inv in Hrun as (s1 & r & Hdh & Hrun).
  apply keeps_validate_data_health, same_inputs_fields in Hdh as (Hq1 & Hp1 & Hs1).
  apply bind_inv in Hrun as (s2 & l & HA & Hrun).
  apply keeps_A_get, same_inputs_fields in HA as (Hq2 & Hp2 & Hs2).
  apply bind_inv in Hrun as (s3 & m & [-> ->]%load_inv & Hrun).
  apply bind_inv in Hrun as (s4 & b & Hb & Hrun).
  apply keeps_b_get, same_inputs_fields in Hb as (Hq4 & Hp4 & Hs4).
  set (m := default _ _) in Hrun.
  destruct (solver m b x0) as [x_new code] eqn:Esol.
  apply bind_inv in Hrun as (s5 & x & [-> (q & Hq & Hx)]%x_get_inv & Hrun).
  apply bind_inv in Hrun as (s6 & [] & (q' & Hq' & ->)%x_set_inv & Hrun).
  assert (q' = q) as -> by congruence.
  apply bind_inv in Hrun as (s7 & [] & Hup & Hrun).
  apply keeps_update_A_and_b, same_inputs_fields in Hup as (Hq7 & Hp7 & Hs7).
  cbn in Hq7, Hp7, Hs7.
  apply bind_inv in Hrun as (s8 & q8 & [-> Hq8]%quantity_key_inv & Hrun).
  assert (q8 = q) as -> by congruence.
  apply bind_inv in Hrun as (s9 & c0 & [-> Hc0]%soln_get_inv & Hrun).
  apply bind_inv in Hrun as (s10 & v & [-> _]%dict_get_inv & Hrun).
  apply bind_inv in Hrun as (s11 & x' & [-> (q11 & Hq11 & Hx')]%x_get_inv & Hrun).
  assert (q11 = q) as -> by congruence.
  rewrite Hp7, lookup_insert_eq in Hx'. injection Hx' as <-.
  apply bind_inv in Hrun as (s12 & [] & ->%modify_inv & Hrun).
  apply bind_inv in Hrun as (s13 & c1 & [-> Hc1]%soln_get_inv & Hrun).
  apply modify_inv in Hrun as ->. cbn in Hc1. injection Hc1 as <-.
  exists q, x, m, b, c0. rewrite Esol. cbn.
  rewrite Hp7, Hp4, Hp2, Hp1 in *. rewrite Hq4, Hq2, Hq1 in Hq.
  rewrite Hs7, Hs4, Hs2, Hs1 in Hc0.
  by repeat split.
Qed.

(** A run that returns hands back the container stored on the algorithm;
    under the quantity name it holds the field that is also stored on the
    algorithm, which is the relaxed solver output, and the solver output
    itself when that has the length of the finite initial guess; the
    converged flag says whether the solver's exit code was zero. *)
Theorem run_returns_stored_solution diagnose default_solver solver x0 s s' c :
  run diagnose default_solver solver x0 s = (s', Ok c) →
  ∃ q guess m b,
    quantity (settings s) = Some q
    ∧ (∀ v, x0 = Some v → guess = v)
    ∧ (x0 = None → ∃ b0, guess = zeros_like b0)
    ∧ all_finite guess = true
    ∧ soln s' = Some c
    ∧ is_converged c
      = bool_decide ((default default_solver solver m b guess).2 = 0%Z)
    ∧ solutions c !! q
      = Some (relax (Fin 1) (default default_solver solver m b guess).1 guess)
    ∧ props s' !! q = solutions c !! q
    ∧ (length (default default_solver solver m b guess).1 = length guess →
       solutions c !! q = Some (default default_solver solver m b guess).1).
Proof.
  unfold run. intros Hrun.
  apply bind_inv in Hrun as (s1 & [] & Hvs & Hrun).
  pose proof (_validate_settings_state _ _ _ Hvs) as ->.
  destruct (_validate_settings_ok _ Hvs) as (q & _ & _ & Hq & _).
  apply bind_inv in Hrun as (s2 & r & Hdh & Hrun).
  apply keeps_validate_data_health, same_inputs_fields in Hdh as (Hq2 & Hp2 & Hs2).
  apply bind_inv in Hrun as (s3 & guess & Hguess & Hrun).
  assert (same_inputs s2 s3
          ∧ (∀ v, x0 = Some v → guess = v)
          ∧ (x0 = None → ∃ b0, guess = zeros_like b0)) as (Hsame3 & Hsome & Hnone).
  { destruct x0 as [v|].
    - injection Hguess as <- <-. split; [apply same_inputs_refl|].
      split; [by intros ? [= <-]|done].
    - apply bind_inv in Hguess as (s3' & b0 & Hb & Hret).
      injection Hret as <- <-. split; [by eapply keeps_b_get|].
      split; [done|]. intros _. by exists b0. }
  apply same_inputs_fields in Hsame3 as (Hq3 & Hp3 & Hs3).
  apply bind_inv in Hrun as (s4 & [] & (q4 & Hq4 & ->)%x_set_inv & Hrun).
  assert (q4 = q) as -> by congruence.
  apply bind_inv in Hrun as (s5 & [] & ->%modify_inv & Hrun).
  apply bind_inv in Hrun as (s6 & [] & Hvx & Hrun).
  apply _validate_x0_inv in Hvx as [-> (g0 & Hg0 & Hfin)].
  cbn in Hg0. rewrite lookup_insert_eq in Hg0. injection Hg0 as <-.
  apply bind_inv in Hrun as (s7 & [] & ->%modify_inv & Hrun).
  apply bind_inv in Hrun as (s8 & q8 & [-> Hq8]%quantity_key_inv & Hrun).
  cbn in Hq8. assert (q8 = q) as -> by congruence.
  apply bind_inv in Hrun as (s9 & c0 & [-> Hc0]%soln_get_inv & Hrun).
  cbn in Hc0. injection Hc0 as <-.
  apply bind_inv in Hrun as (s10 & [] & ->%modify_inv & Hrun).
  apply bind_inv in Hrun as (s11 & c1 & [-> Hc1]%soln_get_inv & Hrun).
  cbn in Hc1. injection Hc1 as <-.
  apply bind_inv in Hrun as (s12 & [] & ->%modify_inv & Hrun).
  apply bind_inv in Hrun as (s13 & [] & Hup & Hrun).
  apply keeps_update_A_and_b, same_inputs_fields in Hup as (Hq13 & Hp13 & Hs13).
  cbn in Hq13, Hp13, Hs13.
  apply bind_inv in Hrun as (s14 & [] & Hsp & Hrun).
  apply soln_get_inv in Hrun as [-> Hc].
  apply _run_special_inv in Hsp
    as (q' & x & m & b & c0 & Hq' & Hx & Hc0 & _ & Hp' & Hs').
  assert (q' = q) as -> by congruence.
  assert (x = guess) as ->.
  { rewrite Hp13 in Hx. rewrite lookup_insert in Hx. case_decide.
    - by injection Hx.
    - rewrite lookup_insert_eq in Hx. by injection Hx. }
  rewrite Hs13 in Hc0. injection Hc0 as <-. cbn in Hs'.
  rewrite Hs' in Hc. injection Hc as <-. cbn.
  exists q, guess, m, b. rewrite Hq2 in Hq3. rewrite Hq3 in Hq4.
  split; [done|]. split; [done|]. split; [done|]. split; [done|].
  split; [done|]. split; [done|].
  split; [by rewrite lookup_insert_eq|].
  split; [by rewrite Hp', !lookup_insert_eq|].
  intros Hl. by rewrite lookup_insert_eq, relax_full.
Qed.

(** With the conductance among the iterative properties, or with caching
    off, [_build_A] makes the pure matrix anew from the conductance array at
    hand, whatever the cache held, and an iterative conductance switches the
    cache setting off. *)
Theorem build_A_rebuilds s g :
  conductance_array s = Some g →
  length g = length (conns (network s)) →
  key_in (conductance (settings s)) (iterative_props s) = true
  ∨ cache (settings s) = false →
  ∃ s' p l,
    _build_A s = (s', Ok tt)
    ∧ _pure_A s' = Some p ∧ heap s' !! p = Some (pure_matrix (network s) g)
    ∧ _A s' = Some l ∧ l ≠ p ∧ heap s' !! l = Some (pure_matrix (network s) g)
    ∧ cache (settings s') = false.
Proof.
  intros Hg Hlen Hoff. rewrite (_build_A_run s g Hg Hlen). cbv zeta.
  destruct s as [[ph q c ca] net prj ips pr h a b0 pa pb so]. cbn in *.
  assert ((if cache (settings
                  (if key_in c ips
                   then set_cache false
                          {| settings := {| phase := ph; quantity := q;
                                            conductance := c; cache := ca |};
                             network := net; project := prj;
                             iterative_props := ips; props := pr; heap := h;
                             _A := a; _b := b0; _pure_A := pa; _pure_b := pb;
                             soln := so |}
                   else {| settings := {| phase := ph; quantity := q;
                                          conductance := c; cache := ca |};
                           network := net; project := prj;
                           iterative_props := ips; props := pr; heap := h;
                           _A := a; _b := b0; _pure_A := pa; _pure_b := pb;
                           soln := so |}))
           then pa else None) = None) as ->.
  { destruct (key_in c ips); cbn; [done|]. destruct Hoff as [?| ->]; done. }
  eexists _, (length h), (S (length h)). split; [done|].
  destruct (key_in c ips); cbn.
  all: rewrite lookup_new_second, (list_lookup_middle h [_] _ (length h)) by done.
  all: repeat split; try done; try lia.
  destruct Hoff as [?| ->]; done.
Qed.

Lemma pure_matrix_sym_all net (g : list Qc) i j :
  coo_get (pure_matrix net (Fin <$> g)) i j
  = coo_get (pure_matrix net (Fin <$> g)) j i.
Proof.
  destruct (decide (i = j)) as [->|Hij]; [done|].
  rewrite !pure_matrix_off by done. do 2 f_equal.
  unfold throat_sum. apply Qsum_ext. pos_cases.
Qed.

(** * The further properties on concrete algorithms *)

Lemma rate_throat_is_flow_size_chain3 :
  rate (LocInts []) (LocInts [Z.of_nat 0]) "single" chain3_solved
  = Returns [nabs (nsub (nmul (vget [qz 2; qz 2] 0)
                           (vget [qz 10; qz 5; qz 0] (0%nat, 1%nat).2))
                        (nmul (vget [qz 2; qz 2] 0)
                           (vget [qz 10; qz 5; qz 0] (0%nat, 1%nat).1)))]
  ∧ nabs (nsub (nmul (vget [qz 2; qz 2] 0)
                  (vget [qz 10; qz 5; qz 0] (0%nat, 1%nat).2))
               (nmul (vget [qz 2; qz 2] 0)
                  (vget [qz 10; qz 5; qz 0] (0%nat, 1%nat).1)))
    = nabs (nsub (nmul (vget [qz 2; qz 2] 0)
                    (vget [qz 10; qz 5; qz 0] (0%nat, 1%nat).1))
                 (nmul (vget [qz 2; qz 2] 0)
                    (vget [qz 10; qz 5; qz 0] (0%nat, 1%nat).2))).
Proof.
  refine (rate_throat_is_flow_size chain3_solved
            {[ "throat.diffusive_conductance" := [qz 2; qz 2] ]}
            [qz 2; qz 2] [qz 10; qz 5; qz 0] 0 (0, 1) _ _ _ _ _ _ _).
  - vm_compute. reflexivity.
  - vm_compute. reflexivity.
  - vm_compute. reflexivity.
  - reflexivity.
  - vm_compute. lia.
  - repeat constructor.
  - reflexivity.
Defined.

Lemma rate_throats_single_throat_network_pair :
  rate (LocInts []) (LocInts [0%Z]) "single" pair_solved = Fails IndexError.
Proof.
  apply (rate_throats_single_throat_network pair_solved [Q2Qc 2]
           [Q2Qc 1; Q2Qc 0] "pore.concentration").
  - by vm_compute.
  - reflexivity.
  - reflexivity.
  - by vm_compute.
  - reflexivity.
  - unfold network_wf. by_decide.
  - reflexivity.
  - done.
Defined.

Lemma rate_needs_pores_or_throats_chain3 :
  rate (LocInts [0%Z]) (LocMask [true; false]) "group" chain3_solved
  = Fails (PyExn (Exception "Must specify either pores or throats, not both")).
Proof.
  apply (rate_needs_pores_or_throats chain3_solved (LocInts [0%Z])
           (LocMask [true; false]) [0%Z] [0%Z] "group"); done.
Defined.

Lemma parse_indices_mask_chain3 :
  ∃ l, _parse_indices chain3 (LocMask [true; false; true]) = Returns l
       ∧ NoDup l.
Proof.
  destruct (parse_indices_mask chain3 [true; false; true]) as [Hok _].
  destruct Hok as (l & Hl & _ & _ & Hnd); [by left|]. by exists l.
Defined.

Lemma apply_BCs_keeps_symmetry_chain3 :
  ∃ s' A',
    _apply_BCs chain3_built = (s', Ok tt) ∧ heap s' !! 1 = Some A'
    ∧ coo_get A' 0 1 = coo_get A' 1 0.
Proof.
  destruct (apply_BCs_keeps_symmetry chain3_built 1
              (pure_matrix chain3 (Fin <$> [Q2Qc 2; Q2Qc 2])) (zeros 3))
    as (s' & A' & Hrun & _ & HA & Hsym).
  - by vm_compute.
  - by vm_compute.
  - by vm_compute.
  - apply pure_matrix_sym_all.
  - by exists s', A'.
Defined.

Lemma apply_BCs_free_block_chain3 :
  ∃ s' A',
    _apply_BCs chain3_built = (s', Ok tt) ∧ heap s' !! 1 = Some A'
    ∧ coo_get A' 1 1 = coo_get (pure_matrix chain3 [qz 2; qz 2]) 1 1
    ∧ Forall (λ e, nonzero (data e) = true) (entries A').
Proof.
  destruct (apply_BCs_free_block chain3_built 1
              (pure_matrix chain3 [qz 2; qz 2]) (zeros 3) [qz 10; NaN; qz 0])
    as (s' & A' & b' & Hrun & _ & HA & _ & Hfree & _ & _ & Hnz).
  - by vm_compute.
  - by vm_compute.
  - by vm_compute.
  - by vm_compute.
  - exists s', A'. split; [done|]. split; [done|]. split; [|done].
    apply Hfree; [cbn; lia|done|done].
Defined.

Lemma update_A_and_b_twice_chain3 :
  ∃ s1 s2 l1 l2 A' b',
    (_update_A_and_b;; _update_A_and_b) chain3_alg = (s2, Ok tt)
    ∧ _update_A_and_b chain3_alg = (s1, Ok tt)
    ∧ _A s1 = Some l1 ∧ heap s1 !! l1 = Some A' ∧ _b s1 = Some b'
    ∧ _A s2 = Some l2 ∧ heap s2 !! l2 = Some A' ∧ _b s2 = Some b'.
Proof.
  destruct (update_A_and_b_twice chain3_alg [qz 2; qz 2])
    as (s1 & l1 & s2 & l2 & A' & b' & H1 & H2 & ?).
  - by vm_compute.
  - reflexivity.
  - intros p Hp. by vm_compute in Hp.
  - exists s1, s2, l1, l2, A', b'. split; [|done].
    by erewrite bind_ok by exact H1.
Defined.

Lemma build_A_uses_cache_chain3 :
  ∃ s' l,
    _build_A chain3_cached = (s', Ok tt)
    ∧ heap s' !! l = Some (pure_matrix chain3 [qz 2; qz 2])
    ∧ conductance_array chain3_cached = None.
Proof.
  destruct (build_A_uses_cache chain3_cached ∅ 0
              (pure_matrix chain3 [qz 2; qz 2]))
    as (s' & l & Hrun & _ & _ & Hl & _).
  - reflexivity.
  - reflexivity.
  - reflexivity.
  - reflexivity.
  - by vm_compute.
  - by exists s', l.
Defined.

Lemma build_A_rebuilds_chain3 :
  ∃ s' p,
    _build_A (set_cache false chain3_built) = (s', Ok tt)
    ∧ _pure_A s' = Some p ∧ cache (settings s') = false
    ∧ heap s' !! p = Some (pure_matrix chain3 [qz 2; qz 2]).
Proof.
  destruct (build_A_rebuilds (set_cache false chain3_built) [qz 2; qz 2])
    as (s' & p & l & Hrun & Hp & Hh & _ & _ & _ & Hc).
  - vm_compute. reflexivity.
  - reflexivity.
  - right. reflexivity.
  - exists s', p. split; [exact Hrun|]. split; [exact Hp|].
    split; [exact Hc|exact Hh].
Defined.

Lemma validate_data_health_passed_chain3 :
  ∃ s',
    _validate_data_health plain_diagnose chain3_alg = (s', Ok true)
    ∧ same_inputs chain3_alg s'.
Proof.
  destruct (validate_data_health_passed plain_diagnose chain3_alg
              (_validate_data_health plain_diagnose chain3_alg).1 true)
    as (_ & Hsame & _).
  - by vm_compute.
  - eexists. split; [|exact Hsame]. by vm_compute.
Defined.

Lemma run_returns_stored_solution_chain3 :
  ∃ s' c,
    run plain_diagnose echo_solver None None chain3_alg = (s', Ok c)
    ∧ soln s' = Some c
    ∧ props s' !! "pore.concentration" = solutions c !! "pore.concentration".
Proof.
  assert (∃ s' c, run plain_diagnose echo_solver None None chain3_alg
                  = (s', Ok c)) as (s' & c & Hrun)
    by (eexists _, _; vm_compute; reflexivity).
  destruct (run_returns_stored_solution _ _ _ _ _ _ _ Hrun)
    as (q & guess & m & b & Hq & _ & _ & _ & Hs & _ & _ & Hp & _).
  vm_compute in Hq. injection Hq as <-.
  exists s', c. split; [exact Hrun|]. split; [exact Hs|exact Hp].
Defined.

(** ** A zero mean diagonal *)

(** When the mean of the diagonal is zero (no throats, or conductances
    that cancel) the value conditions are lost: the row of a constrained
    pore keeps no stored value and its right-hand side is zero, so every
    field satisfies its equation. *)
Theorem apply_BCs_zero_mean_diagonal s l A b value i v :
  _A s = Some l → heap s !! l = Some A → _b s = Some b →
  props s !! "pore.bc.value" = Some value →
  length value = shape A → length b = shape A →
  value !! i = Some (Fin v) →
  mean (coo_diagonal A) = Fin 0 →
  ∃ s' A' b',
    _apply_BCs s = (s', Ok tt)
    ∧ _A s' = Some l ∧ heap s' !! l = Some A' ∧ _b s' = Some b'
    ∧ filter (λ e, row e = i) (entries A') = []
    ∧ vget b' i = Fin 0
    ∧ ∀ x, coo_row_dot A' x i = vget b' i.
Proof.
  intros HA Hh Hb Hv Hlv Hlb Hi Hf.
  assert (i < shape A) as Hlt by (rewrite <- Hlv; by eapply lookup_lt_Some).
  assert (vget value i = Fin v) as Hvi by (by apply vget_lookup).
  assert (mget (isfinite <$> value) i = true) as Hci
    by (by rewrite mget_isfinite, Hvi).
  assert (l < length (heap s)) as Hll by (by eapply lookup_lt_Some).
  set (b0 := rate_rhs (props s !! "pore.bc.rate") b).
  assert (length b0 = shape A) as Hlb0.
  { unfold b0, rate_rhs. destruct (props s !! "pore.bc.rate"); [|done].
    by rewrite length_mask_assign. }
  assert (filter (λ e, row e = i) (entries (value_matrix value A)) = []) as Hrow.
  { rewrite value_matrix_row, Hf by done.
    rewrite filter_cons, decide_False; [done|]. by vm_compute. }
  assert (vget (value_rhs value A b0) i = Fin 0) as Hbi.
  { rewrite value_rhs_constrained, Hvi, Hf by (rewrite ?Hvi; done || lia).
    cbn. f_equal. ring. }
  rewrite (_apply_BCs_run s l A b), Hv by done.
  eexists _, (value_matrix value A), (value_rhs value A b0).
  split; [done|]. split; [done|].
  split; [cbn; by apply list_lookup_insert_eq|]. split; [done|].
  split; [done|]. split; [done|].
  intros x. unfold coo_row_dot. by rewrite Hrow, Hbi.
Qed.

Lemma apply_BCs_zero_mean_diagonal_isolated :
  ∃ s' A' b',
    _apply_BCs isolated_built = (s', Ok tt)
    ∧ heap s' !! 1 = Some A' ∧ _b s' = Some b'
    ∧ filter (λ e, row e = 0) (entries A') = []
    ∧ vget b' 0 = Fin 0.
Proof.
  destruct (apply_BCs_zero_mean_diagonal isolated_built 1
              (pure_matrix {| Np := 2; conns := [] |} []) (zeros 2)
              [qz 1; NaN] 0 (Q2Qc 1))
    as (s' & A' & b' & Hrun & _ & HA & Hb & Hrow & Hb0 & _).
  - vm_compute. reflexivity.
  - vm_compute. reflexivity.
  - vm_compute. reflexivity.
  - vm_compute. reflexivity.
  - reflexivity.
  - reflexivity.
  - reflexivity.
  - by_decide.
  - exists s', A', b'. split; [exact Hrun|]. split; [exact HA|].
    split; [exact Hb|]. split; [exact Hrow|exact Hb0].
Defined.
